(** * Wurstliga: scraper scoring, round status and season aggregation

    A shallow embedding of the parse -> derive -> aggregate pipeline of
    [scraper/scrape_kicktipp.py] and [scraper/compute_wurstliga.py],
    with the properties of the specification stated and proved over it.

    Conventions.
    - A Python [str] is a list of Unicode code points ([pystr]).
    - A Python [int] is a [Z].
    - A [dict] that is only read by key is a [gmap]; a [dict] whose
      insertion order is observed (the season totals) is an association
      list.
    - [sorted(..., reverse=True)] is a stable descending sort. *)

From Stdlib Require Import ZArith Lia Ascii String.
From stdpp Require Import gmap list sorting.

Set Warnings "-clear-no-such-hyp,-register-all".

Local Open Scope Z_scope.

(** ** Python strings *)

Definition pystr := list N.

(** Code points of an ASCII literal. *)
Definition py (s : string) : pystr :=
  (λ a, N_of_ascii a) <$> list_ascii_of_string s.

(** [str.isspace] of one character: the characters [str.strip] removes
    and the class [\s] of [re] on a [str] pattern. *)
Definition isspace (c : N) : bool :=
  ((9 <=? c) && (c <=? 13) || (28 <=? c) && (c <=? 32)
   || (c =? 133) || (c =? 160) || (c =? 5760)
   || (8192 <=? c) && (c <=? 8202)
   || (c =? 8232) || (c =? 8233) || (c =? 8239) || (c =? 8287)
   || (c =? 12288))%N.

Fixpoint lstrip (s : pystr) : pystr :=
  match s with
  | c :: s' => if isspace c then lstrip s' else s
  | [] => []
  end.

Definition rstrip (s : pystr) : pystr := reverse (lstrip (reverse s)).

(** [s.strip()] *)
Definition strip (s : pystr) : pystr := rstrip (lstrip s).

(** [sep.join(parts)] *)
Fixpoint join (sep : pystr) (parts : list pystr) : pystr :=
  match parts with
  | [] => []
  | [x] => x
  | x :: rest => x ++ sep ++ join sep rest
  end.

Fixpoint startswith (needle s : pystr) : bool :=
  match needle, s with
  | [], _ => true
  | a :: needle', b :: s' => (a =? b)%N && startswith needle' s'
  | _ :: _, [] => false
  end.

(** [needle in s] for strings. *)
Fixpoint contains (needle s : pystr) : bool :=
  startswith needle s ||
  match s with
  | [] => false
  | _ :: s' => contains needle s'
  end.

(** ** The interpreter and its libraries

    What the code takes from outside this repository and what depends
    on the Unicode tables, the integer parser and the time zone
    database of the installation. *)
Class Runtime := {
  (** the class [\d] of [re]: Unicode decimal digits *)
  isdecimal : N → bool;
  (** the builtin int on a [str]: [None] when it raises [ValueError] *)
  int : pystr → option Z;
  (** lines 133-142 of [parse_matches]: [DATE_RE.search], [strptime],
      [replace(tzinfo=...)] and [isoformat]; [None] when there is no
      match or the conversion raises *)
  kickoff_isoformat : pystr → option pystr
}.

(** The interpreter on ASCII input: [\d] is [0-9], the integer
    conversion reads an optional sign followed by digits, and no
    kick-off time is read.  It stands for the interpreter on the sample
    documents below, whose cells hold ASCII text and no date. *)
Definition ascii_isdecimal (c : N) : bool := ((48 <=? c) && (c <=? 57))%N.

Fixpoint ascii_digits (acc : Z) (s : pystr) : option Z :=
  match s with
  | [] => Some acc
  | c :: s' =>
      if ascii_isdecimal c
      then ascii_digits (10 * acc + (Z.of_N c - 48)) s'
      else None
  end.

Definition ascii_unsigned (s : pystr) : option Z :=
  match s with
  | [] => None
  | _ :: _ => ascii_digits 0 s
  end.

Definition ascii_int (s : pystr) : option Z :=
  match strip s with
  | 45%N :: s' => Z.opp <$> ascii_unsigned s'
  | 43%N :: s' => ascii_unsigned s'
  | s' => ascii_unsigned s'
  end.

Definition ascii_runtime : Runtime :=
  {| isdecimal := ascii_isdecimal;
     int := ascii_int;
     kickoff_isoformat := λ _, None |}.

(** ** Regular expressions

    A backtracking matcher in continuation style: [k] matches the rest
    of the pattern on the rest of the string.  Only whether a match
    exists is observed, so the order in which alternatives are tried
    does not matter. *)
Section regex.
Context (cls : N → bool) (k : pystr → bool).

(** [cls*] *)
Fixpoint re_star (s : pystr) : bool :=
  k s ||
  match s with
  | c :: s' => cls c && re_star s'
  | [] => false
  end.

(** [cls+] *)
Definition re_plus (s : pystr) : bool :=
  match s with
  | c :: s' => cls c && re_star s'
  | [] => false
  end.
End regex.

(** one literal character *)
Definition re_char (c0 : N) (k : pystr → bool) (s : pystr) : bool :=
  match s with
  | c :: s' => (c =? c0)%N && k s'
  | [] => false
  end.

(** [$]: the end of the string, or just before a final newline *)
Definition re_end (s : pystr) : bool :=
  bool_decide (s = []) || bool_decide (s = [10%N]).

(** [NUM_RE.match(s)] is not [None], for
    [NUM_RE = re.compile(r"^\s*(\d+)\s*:\s*(\d+)\s*$")]. *)
Definition NUM_RE `{Runtime} (s : pystr) : bool :=
  re_star isspace
    (re_plus isdecimal
      (re_star isspace
        (re_char 58
          (re_star isspace
            (re_plus isdecimal
              (re_star isspace re_end)))))) s.

(** ** The parsed document (BeautifulSoup) *)

Inductive node :=
  | NavigableString (text : pystr)
  | Tag (tag_name : string) (contents : list node).

(** [tag.descendants]: every node below the tag, in document order. *)
Fixpoint descendants (n : node) : list node :=
  match n with
  | NavigableString _ => []
  | Tag _ cs => flat_map (λ c, c :: descendants c) cs
  end.

Definition is_tag (nm : string) (n : node) : bool :=
  match n with
  | Tag t _ => bool_decide (t = nm)
  | NavigableString _ => false
  end.

(** [tag.find_all(nm)] *)
Definition find_all (nm : string) (n : node) : list node :=
  List.filter (is_tag nm) (descendants n).

(** [tag.find(nm)] *)
Definition find (nm : string) (n : node) : option node :=
  head (find_all nm n).

(** The strings [get_text(..., strip=True)] joins: each string below the
    tag, stripped, unless nothing is left of it. *)
Definition stripped_strings (n : node) : list pystr :=
  omap (λ d, match d with
             | NavigableString t =>
                 let t' := strip t in
                 if bool_decide (t' = []) then None else Some t'
             | Tag _ _ => None
             end) (descendants n).

(** [tag.get_text(sep, strip=True)] *)
Definition get_text (sep : pystr) (n : node) : pystr :=
  join sep (stripped_strings n).

(** ** [sorted(xs, key=..., reverse=True)]

    [lt a b] is "the key of [a] is smaller than the key of [b]".
    Elements whose keys compare equal keep their input order. *)

Section sorted_reverse.
Context {A : Type} (lt : A → A → bool).

Fixpoint insert_desc (x : A) (l : list A) : list A :=
  match l with
  | [] => [x]
  | y :: l' => if lt x y then y :: insert_desc x l' else x :: l
  end.

Definition sorted_reverse (l : list A) : list A :=
  foldr insert_desc [] l.

(** The order the sort establishes: no element is smaller than a
    later one. *)
Definition not_below (a b : A) : Prop := lt a b = false.
End sorted_reverse.

(** ** Configuration ([scraper/config.py]) *)

Definition WURSTLIGA_LADDER : list Z := [10; 8; 6; 5; 4; 3; 2; 1].
Definition MATCHES_PER_SPIELTAG : Z := 9.

(** ** Player records *)

(** What [parse_players] appends: [{"name": ..., "kicktipp_P": ...}]. *)
Record player := Player { name : pystr; kicktipp_P : Z }.

(** A player dict after [apply_wurstliga_scoring] has added its keys. *)
Record scored := Scored {
  raw : player;
  dense_rank : Z;
  wurstliga_pts : Z;
  sts : Z;
  tv : Z;
  null_wurst : Z
}.

Global Instance player_eq_dec : EqDecision player.
Proof. solve_decision. Defined.
Global Instance scored_eq_dec : EqDecision scored.
Proof. solve_decision. Defined.

(** ** Scoring engine: [apply_wurstliga_scoring] *)

(** [bucket.setdefault(p["kicktipp_P"], []).append(p)] for each player. *)
Definition bucket_add (b : gmap Z (list player)) (p : player)
    : gmap Z (list player) :=
  <[kicktipp_P p := default [] (b !! kicktipp_P p) ++ [p]]> b.

Definition bucket_of (players : list player) : gmap Z (list player) :=
  foldl bucket_add ∅ players.

(** [sorted(bucket.keys(), reverse=True)].  The keys of a dict are
    distinct, so the sorted list is the same in whatever order the dict
    yields them. *)
Definition unique_scores (b : gmap Z (list player)) : list Z :=
  sorted_reverse Z.ltb (elements (dom b)).

(** [enumerate(xs)] *)
Definition enumerate {A} (l : list A) : list (Z * A) :=
  imap (λ i x, (Z.of_nat i, x)) l.

(** [{score: i + 1 for i, score in enumerate(unique_scores)}] *)
Definition score_to_dense_rank (scores : list Z) : gmap Z Z :=
  foldl (λ m '(i, score), <[score := i + 1]> m) ∅ (enumerate scores).

(** [ladder[idx] if 0 <= idx < len(ladder) else 0] *)
Definition ladder_points (ladder : list Z) (ladder_idx : Z) : Z :=
  if bool_decide (0 ≤ ladder_idx < Z.of_nat (length ladder))
  then default 0 (ladder !! Z.to_nat ladder_idx)
  else 0.

(** The body of the second loop, for one player.  The ladder holds
    integers, on which the conversion of [wurst] is the identity. *)
Definition score_player (ladder : list Z) (ranks : gmap Z Z) (p : player)
    : scored :=
  let dense_rank := default 999 (ranks !! kicktipp_P p) in
  let ladder_idx := dense_rank - 1 in
  let wurst := ladder_points ladder ladder_idx in
  {| raw := p;
     dense_rank := dense_rank;
     wurstliga_pts := wurst;
     sts := if bool_decide (dense_rank = 1) then 1 else 0;
     tv := if bool_decide (kicktipp_P p = 0) then 1 else 0;
     null_wurst := if bool_decide (wurst = 0) then 1 else 0 |}.

Definition apply_wurstliga_scoring (ladder : list Z) (players : list player)
    : list scored :=
  let bucket := bucket_of players in
  let ranks := score_to_dense_rank (unique_scores bucket) in
  score_player ladder ranks <$> players.

(** The distinct raw scores of a round. *)
Definition distinct_scores (players : list player) : gset Z :=
  list_to_set (kicktipp_P <$> players).

(** ** Match extractor: [parse_matches] *)

Record match_record := MatchRecord {
  kicktipp_row : Z;
  datetime_local : option pystr;
  home : pystr;
  away : pystr;
  result : pystr
}.

(** [enumerate(xs, start=1)] *)
Definition enumerate1 {A} (l : list A) : list (Z * A) :=
  imap (λ i x, (Z.of_nat i + 1, x)) l.

(** [[t.get_text(strip=True) for t in tbl.find_all("th")]] *)
Definition header_cells (tbl : node) : list pystr :=
  get_text [] <$> find_all "th" tbl.

(** [{"Termin", "Heim", "Gast", "Ergebnis"}.issubset(set(headers))] *)
Definition is_match_table (tbl : node) : bool :=
  let headers := header_cells tbl in
  forallb (λ h, bool_decide (h ∈ headers))
    [py "Termin"; py "Heim"; py "Gast"; py "Ergebnis"].

(** The first loop of [parse_matches]: the first table that qualifies,
    [None] when the loop ends without a [break]. *)
Definition find_match_table (soup : node) : option node :=
  head (List.filter is_match_table (find_all "table" soup)).

(** [[td.get_text(" ", strip=True) for td in tr.find_all("td")]] *)
Definition row_cells (tr : node) : list pystr :=
  get_text (py " ") <$> find_all "td" tr.

(** Lines 144-146: [res = ergebnis.strip()], kept only when [NUM_RE]
    matches it. *)
Definition normalize_result `{Runtime} (ergebnis : pystr) : pystr :=
  let res := strip ergebnis in
  if NUM_RE res then res else [].

(** The body of the row loop: [None] is [continue]. *)
Definition parse_match_row `{Runtime} (row : Z * node) : option match_record :=
  let '(i, tr) := row in
  match row_cells tr with
  | termin :: heim :: gast :: ergebnis :: _ =>
      Some {| kicktipp_row := i;
              datetime_local := kickoff_isoformat termin;
              home := heim;
              away := gast;
              result := normalize_result ergebnis |}
  | _ => None
  end.

Definition parse_matches `{Runtime} (soup : node) : list match_record * Z :=
  match find_match_table soup with
  | None => ([], 0)
  | Some match_table =>
      let body := default match_table (find "tbody" match_table) in
      let rows := find_all "tr" body in
      (omap parse_match_row (enumerate1 rows), Z.of_nat (length rows))
  end.

(** ** Player score extractor: [parse_players] *)

(** ["Name" in header_text and "P" in header_text] on the header cells
    joined by a blank. *)
Definition is_player_table (tbl : node) : bool :=
  let header_text := join (py " ") (header_cells tbl) in
  contains (py "Name") header_text && contains (py "P") header_text.

Definition find_player_table (soup : node) : option node :=
  head (List.filter is_player_table (find_all "table" soup)).

(** [headers.index("Name")], with the fallback of the [except] branch. *)
Definition name_index (headers : list pystr) : Z :=
  match list_find (λ h, h = py "Name") headers with
  | Some (i, _) => Z.of_nat i
  | None => if bool_decide (2 < Z.of_nat (length headers)) then 2 else 0
  end.

(** The last index of a header equal to ["P"], else
    [max(0, len(headers) - 3)]. *)
Definition p_index (headers : list pystr) : Z :=
  let p_indices :=
    omap (λ '(i, h), if bool_decide (h = py "P") then Some i else None)
         (enumerate headers) in
  match last p_indices with
  | Some i => i
  | None => Z.max 0 (Z.of_nat (length headers) - 3)
  end.

(** The body of the row loop: [None] when the row is skipped. *)
Definition parse_player_row `{Runtime} (name_idx p_idx : Z) (tr : node)
    : option player :=
  let tds := row_cells tr in
  if bool_decide (tds = []) ||
     bool_decide (Z.of_nat (length tds) ≤ Z.max name_idx p_idx)
  then None
  else
    match tds !! Z.to_nat name_idx, tds !! Z.to_nat p_idx with
    | Some name_cell, Some p_cell =>
        let name := strip name_cell in
        let p_raw := strip p_cell in
        let p_val := default 0 (int p_raw) in
        if bool_decide (name ≠ []) then Some (Player name p_val) else None
    | _, _ => None
    end.

Definition parse_players `{Runtime} (soup : node) : list player :=
  match find_player_table soup with
  | None => []
  | Some player_table =>
      let headers := header_cells player_table in
      let name_idx := name_index headers in
      let p_idx := p_index headers in
      let tbody := default player_table (find "tbody" player_table) in
      omap (parse_player_row name_idx p_idx) (find_all "tr" tbody)
  end.

(** ** Round status resolver: [derive_spieltag_status] *)

Inductive status := not_started | in_progress | complete.

Global Instance status_eq_dec : EqDecision status.
Proof. solve_decision. Defined.

(** The string written to the round document. *)
Definition status_str (st : status) : pystr :=
  match st with
  | not_started => py "not_started"
  | in_progress => py "in_progress"
  | complete => py "complete"
  end.

(** [sum(1 for m in matches if NUM_RE.match(m.get("result", "")))] *)
Definition results_done `{Runtime} (matches : list match_record) : Z :=
  Z.of_nat (length (List.filter (λ m, NUM_RE (result m)) matches)).

(** [total_slots if total_slots > 0
     else (len(matches) or MATCHES_PER_SPIELTAG)] *)
Definition expected_total (matches : list match_record) (total_slots : Z) : Z :=
  if bool_decide (0 < total_slots) then total_slots
  else if bool_decide (Z.of_nat (length matches) ≠ 0)
       then Z.of_nat (length matches)
       else MATCHES_PER_SPIELTAG.

(** Lines 252-257: the rule before the override. *)
Definition naive_status (done total : Z) : status :=
  if bool_decide (done = 0) then not_started
  else if bool_decide (done < total) then in_progress
  else complete.

(** Line 260: the condition of the override. *)
Definition all_zero_no_results (players : list scored) (done : Z) : bool :=
  bool_decide (players ≠ []) &&
  forallb (λ p, bool_decide (kicktipp_P (raw p) = 0)) players &&
  bool_decide (done = 0).

Definition derive_spieltag_status `{Runtime}
    (matches : list match_record) (total_slots : Z) (players : list scored)
    : status :=
  let done := results_done matches in
  let total := expected_total matches total_slots in
  let status := naive_status done total in
  if all_zero_no_results players done then not_started else status.

(** The order of progress of a round. *)
Definition status_level (st : status) : Z :=
  match st with
  | not_started => 0
  | in_progress => 1
  | complete => 2
  end.

(** ** Round assembler: [parse_spieltag] *)

Definition SEASON : pystr := py "2025-26".

Record round_document := RoundDocument {
  rd_season : pystr;
  rd_spieltag : Z;
  rd_status : status;
  rd_matches : list match_record;
  rd_players : list scored
}.

Definition parse_spieltag `{Runtime} (soup : node) (spieltag : Z)
    : round_document :=
  let '(matches, total_slots) := parse_matches soup in
  let players := apply_wurstliga_scoring WURSTLIGA_LADDER (parse_players soup) in
  let status := derive_spieltag_status matches total_slots players in
  {| rd_season := SEASON;
     rd_spieltag := spieltag;
     rd_status := status;
     rd_matches := matches;
     rd_players := players |}.

(** ** Season aggregator: [compute_wurstliga.main]

    The round documents are read back from JSON: a key read with
    [.get(key, default)] may be missing ([None]); a key read with
    [[key]] is there. *)
Module compute_wurstliga.

Record doc_player := DocPlayer {
  name : pystr;
  kicktipp_P : option Z;
  wurstliga_pts : option Z;
  tv : option Z;
  null_wurst : option Z;
  sts : option Z
}.

Record doc := Doc {
  spieltag : Z;
  status : option pystr;
  players : option (list doc_player)
}.

(** One value of [totals]. *)
Record sums := Sums {
  kicktipp_sum_P : Z;
  wurstliga_sum : Z;
  tv_sum : Z;
  null_sum : Z;
  sts_sum : Z
}.

(** The default factory of [totals]. *)
Definition zero_sums : sums := Sums 0 0 0 0 0.

(** [totals]: a dict in insertion order. *)
Definition totals_dict := list (pystr * sums).

(** [totals.get(name)] *)
Fixpoint totals_get (name : pystr) (totals : totals_dict) : option sums :=
  match totals with
  | [] => None
  | (k, v) :: rest =>
      if bool_decide (k = name) then Some v else totals_get name rest
  end.

(** [t = totals[name]] followed by updates of [t] in place: a missing
    name is first added, at the end, with [zero_sums]. *)
Fixpoint totals_update (f : sums → sums) (name : pystr)
    (totals : totals_dict) : totals_dict :=
  match totals with
  | [] => [(name, f zero_sums)]
  | (k, v) :: rest =>
      if bool_decide (k = name) then (k, f v) :: rest
      else (k, v) :: totals_update f name rest
  end.

(** Lines 35-39. *)
Definition add_to_sums (p : doc_player) (t : sums) : sums :=
  {| kicktipp_sum_P := kicktipp_sum_P t + default 0 (kicktipp_P p);
     wurstliga_sum := wurstliga_sum t + default 0 (wurstliga_pts p);
     tv_sum := tv_sum t + default 0 (tv p);
     null_sum := null_sum t + default 0 (null_wurst p);
     sts_sum := sts_sum t + default 0 (sts p) |}.

Definition add_player (totals : totals_dict) (p : doc_player) : totals_dict :=
  totals_update (add_to_sums p) (name p) totals.

(** [doc.get("players", [])] *)
Definition doc_players (d : doc) : list doc_player := default [] (players d).

(** [all(p.get("kicktipp_P", 0) == 0 for p in doc.get("players", []))] *)
Definition all_zero (d : doc) : bool :=
  forallb (λ p, bool_decide (default 0 (kicktipp_P p) = 0)) (doc_players d).

(** The two [continue] tests of the loop over the documents. *)
Definition skipped (d : doc) : bool :=
  bool_decide (status d = Some (py "not_started")) ||
  (all_zero d && bool_decide (0 < Z.of_nat (length (doc_players d)))).

(** One turn of the loop, on the pair [(totals, counted)]. *)
Definition fold_doc (acc : totals_dict * list Z) (d : doc)
    : totals_dict * list Z :=
  let '(totals, counted) := acc in
  if bool_decide (status d = Some (py "not_started")) then acc
  else if all_zero d && bool_decide (0 < Z.of_nat (length (doc_players d)))
  then acc
  else (foldl add_player totals (doc_players d), counted ++ [spieltag d]).

Definition fold_docs (docs : list doc) : totals_dict * list Z :=
  foldl fold_doc ([], []) docs.

(** The sort key [(wurstliga_sum, kicktipp_sum_P)] and the comparison
    of two keys as tuples. *)
Definition sort_key (kv : pystr * sums) : Z * Z :=
  (wurstliga_sum kv.2, kicktipp_sum_P kv.2).

Definition tuple_lt (a b : Z * Z) : bool :=
  (a.1 <? b.1) || ((a.1 =? b.1) && (a.2 <? b.2)).

Definition key_lt (a b : pystr * sums) : bool :=
  tuple_lt (sort_key a) (sort_key b).

(** [sorted(counted)] *)
Definition sorted_ints (l : list Z) : list Z :=
  sorted_reverse (λ a b, b <? a) l.

Record standings := Standings {
  season : pystr;
  spieltage_counted : list Z;
  updated_at : pystr;
  standings_players : list (pystr * sums)
}.

(** [main], from the documents [load_spieltage] yields and the time
    stamp of the run to the document it writes. *)
Definition main (docs : list doc) (now : pystr) : standings :=
  let '(totals, counted) := fold_docs docs in
  {| season := SEASON;
     spieltage_counted := sorted_ints counted;
     updated_at := now;
     standings_players := sorted_reverse key_lt totals |}.


(** *** What the folded totals are compared with *)

(** The documents the loop does not skip. *)
Definition counted_docs (docs : list doc) : list doc :=
  List.filter (λ d, negb (skipped d)) docs.

(** The player records of a list of documents, in reading order. *)
Definition all_players (docs : list doc) : list doc_player :=
  flat_map doc_players docs.

(** The records of one player name. *)
Definition records_of (n : pystr) (ps : list doc_player) : list doc_player :=
  List.filter (λ p, bool_decide (name p = n)) ps.

(** The sum of one key over player records, a missing key counting 0. *)
Definition field_sum (field : doc_player → option Z) (ps : list doc_player)
    : Z :=
  foldr (λ p acc, default 0 (field p) + acc) 0 ps.

Definition sums_of (ps : list doc_player) : sums :=
  {| kicktipp_sum_P := field_sum kicktipp_P ps;
     wurstliga_sum := field_sum wurstliga_pts ps;
     tv_sum := field_sum tv ps;
     null_sum := field_sum null_wurst ps;
     sts_sum := field_sum sts ps |}.

(** Descending order of sort keys: the first component decides, the
    second breaks ties. *)
Definition key_ge (a b : pystr * sums) : Prop :=
  wurstliga_sum b.2 < wurstliga_sum a.2 ∨
  (wurstliga_sum b.2 = wurstliga_sum a.2 ∧
   kicktipp_sum_P b.2 ≤ kicktipp_sum_P a.2).

End compute_wurstliga.

(** A round document of the scraper as the aggregator reads it back:
    every key is there. *)
Definition doc_player_of (s : scored) : compute_wurstliga.doc_player :=
  {| compute_wurstliga.name := name (raw s);
     compute_wurstliga.kicktipp_P := Some (kicktipp_P (raw s));
     compute_wurstliga.wurstliga_pts := Some (wurstliga_pts s);
     compute_wurstliga.tv := Some (tv s);
     compute_wurstliga.null_wurst := Some (null_wurst s);
     compute_wurstliga.sts := Some (sts s) |}.

Definition doc_of (rd : round_document) : compute_wurstliga.doc :=
  {| compute_wurstliga.spieltag := rd_spieltag rd;
     compute_wurstliga.status := Some (status_str (rd_status rd));
     compute_wurstliga.players := Some (doc_player_of <$> rd_players rd) |}.

(** ** Shapes of a result string *)

(** A non-empty run of decimal digits. *)
Definition digits `{Runtime} (a : pystr) : Prop :=
  a ≠ [] ∧ Forall (λ c, isdecimal c = true) a.

(** A possibly empty run of white space. *)
Definition blanks (w : pystr) : Prop := Forall (λ c, isspace c = true) w.

(** What [NUM_RE] keeps of a stripped cell: digits, a colon and digits,
    with optional white space on either side of the colon. *)
Definition spaced_score `{Runtime} (s : pystr) : Prop :=
  ∃ a w1 w2 b,
    s = a ++ w1 ++ [58%N] ++ w2 ++ b ∧
    digits a ∧ blanks w1 ∧ blanks w2 ∧ digits b.

(** The form in the words of the specification: digits, a colon,
    digits, and no other character. *)
Definition digits_colon_digits `{Runtime} (s : pystr) : bool :=
  re_plus isdecimal
    (re_char 58
      (re_plus isdecimal (λ rest, bool_decide (rest = [])))) s.

(** ** Sample documents *)

Definition th (s : string) : node := Tag "th" [NavigableString (py s)].
Definition td (s : string) : node := Tag "td" [NavigableString (py s)].

(** A fixtures table with one row, whose kick-off cell holds no date
    and whose result cell is [ergebnis]. *)
Definition fixtures_page (ergebnis : string) : node :=
  Tag "[document]"
    [Tag "table"
       [Tag "thead"
          [Tag "tr" [th "Termin"; th "Heim"; th "Gast"; th "Ergebnis"]];
        Tag "tbody"
          [Tag "tr" [td "offen"; td "FCB"; td "BVB"; td ergebnis]]]].

(** A player table with one row. *)
Definition players_page (name_cell p_cell : string) : node :=
  Tag "[document]"
    [Tag "table"
       [Tag "thead" [Tag "tr" [th "Pos"; th "Name"; th "P"]];
        Tag "tbody" [Tag "tr" [td "1"; td name_cell; td p_cell]]]].

(** ** HTTP helper: [get] *)

Definition RETRY : Z := 2.

(** [range(n)] *)
Definition range (n : Z) : list Z := Z.of_nat <$> seq 0 (Z.to_nat n).

(** What one call of [requests.get] gives: a response, with its status
    code and text, or an exception of the transport (time-out, refused
    connection). *)
Inductive reply :=
  | Response (status_code : Z) (text : pystr)
  | TransportError.

(** How a call of [get] ends. *)
Inductive get_outcome :=
  | Returns (status_code : Z) (text : pystr)
  | RaisesHTTPError (status_code : Z)
  | RaisesTransportError
  | RaisesUnboundLocal.

(** What a call of [get] does: how it ends, the durations it slept, in
    order, and the number of requests it sent. *)
Record get_run := GetRun {
  outcome : get_outcome;
  slept : list Z;
  requests_sent : nat
}.

(** [r.raise_for_status(); return r] after the loop: the status codes
    400 to 599 raise, [r] is unbound when the loop had no turn. *)
Definition after_retries (last : option (Z * pystr)) : get_outcome :=
  match last with
  | None => RaisesUnboundLocal
  | Some (code, text) =>
      if bool_decide (400 ≤ code < 600) then RaisesHTTPError code
      else Returns code text
  end.

(** The loop [for i in range(RETRY + 1)] from the turns [turns] on;
    [server n] answers the request number [n] of the call. *)
Fixpoint get_loop (server : nat → reply) (turns : list Z)
    (sent : nat) (naps : list Z) (last : option (Z * pystr)) : get_run :=
  match turns with
  | [] => GetRun (after_retries last) naps sent
  | i :: turns' =>
      match server sent with
      | TransportError => GetRun RaisesTransportError naps (S sent)
      | Response code text =>
          if bool_decide (code = 200)
          then GetRun (Returns code text) naps (S sent)
          else get_loop server turns' (S sent) (naps ++ [1 + i])
                 (Some (code, text))
      end
  end.

Definition get (server : nat → reply) : get_run :=
  get_loop server (range (RETRY + 1)) 0 [] None.

(** ** Round discovery: [discover_spieltage] *)

(** [sorted(xs)] on integers. *)
Definition sorted_ascending (l : list Z) : list Z :=
  sorted_reverse (λ a b, b <? a) l.

(** The URL functions of the standard library, composed as the loop
    uses them: the first value of the query parameter [spieltagIndex] of
    [urljoin(KICKTIPP_BASE, href)], [None] when the parsed query has no
    such key. *)
Class UrlLib := {
  query_spieltagIndex : pystr → option pystr
}.

(** The body of the loop over the links, for the [href] of one link:
    the set of indices after the turn. *)
Definition add_link_index `{Runtime} `{UrlLib}
    (idxs : gset Z) (href : pystr) : gset Z :=
  match query_spieltagIndex href with
  | None => idxs
  | Some v =>
      match int (strip v) with
      | Some idx => if bool_decide (0 < idx) then {[idx]} ∪ idxs else idxs
      | None => idxs
      end
  end.

(** [discover_spieltage], from the [href] values of the links
    [soup.select("a[href*='spieltagIndex=']")] finds on the fetched
    page, in document order. *)
Definition discover_spieltage `{Runtime} `{UrlLib} (hrefs : list pystr)
    : list Z :=
  let idxs := foldl add_link_index ∅ hrefs in
  if bool_decide (idxs = ∅) then (λ k, k + 1) <$> range 34
  else sorted_ascending (elements idxs).

(** The link [href] puts the index [idx] into the set. *)
Definition link_gives `{Runtime} `{UrlLib} (href : pystr) (idx : Z) : Prop :=
  ∃ v, query_spieltagIndex href = Some v ∧ int (strip v) = Some idx ∧ 0 < idx.

(** A URL library that reads a link of the form
    [?spieltagIndex=<value>]. *)
Definition plain_query (href : pystr) : option pystr :=
  if startswith (py "?spieltagIndex=") href
  then Some (drop 15 href) else None.

Definition plain_urllib : UrlLib := {| query_spieltagIndex := plain_query |}.

(** ** The debugging script: [test_scraper.test_parsing] *)
Module test_scraper.

(** What the script appends to [matches]. *)
Record test_match := TestMatch {
  home : pystr;
  away : pystr;
  result : pystr
}.

Definition match_of_row (tr : node) : option test_match :=
  match row_cells tr with
  | termin :: heim :: gast :: ergebnis :: _ =>
      Some (TestMatch heim gast ergebnis)
  | _ => None
  end.

(** The first loop over the tables: the matches of the first table with
    the four headers. *)
Definition matches (soup : node) : list test_match :=
  match find_match_table soup with
  | None => []
  | Some tbl =>
      let tbody := default tbl (find "tbody" tbl) in
      omap match_of_row (find_all "tr" tbody)
  end.

(** The body of the loop over the player rows: [None] when nothing is
    appended. *)
Definition player_of_row `{Runtime} (name_idx p_idx : Z) (tr : node)
    : option player :=
  let tds := row_cells tr in
  if bool_decide (Z.max name_idx p_idx < Z.of_nat (length tds)) then
    let name :=
      if bool_decide (name_idx < Z.of_nat (length tds))
      then strip (default [] (tds !! Z.to_nat name_idx)) else py "?" in
    let p_raw :=
      if bool_decide (p_idx < Z.of_nat (length tds))
      then strip (default [] (tds !! Z.to_nat p_idx)) else py "0" in
    if bool_decide (name ≠ []) && bool_decide (name ≠ py "?")
       && negb (startswith (py "endOfBlock") name)
    then match int p_raw with
         | Some p_val => Some (Player name p_val)
         | None => None
         end
    else None
  else None.

(** The second loop over the tables. *)
Definition players `{Runtime} (soup : node) : list player :=
  match find_player_table soup with
  | None => []
  | Some tbl =>
      let headers := header_cells tbl in
      let tbody := default tbl (find "tbody" tbl) in
      let name_idx := name_index headers in
      let p_idx := p_index headers in
      omap (player_of_row name_idx p_idx) (find_all "tr" tbody)
  end.

End test_scraper.

(** ** Sums over the standings *)

(** The sum of one total over the entries of the totals dict. *)
Definition column_sum (col : compute_wurstliga.sums → Z)
    (totals : list (pystr * compute_wurstliga.sums)) : Z :=
  foldr (λ kv acc, col kv.2 + acc) 0 totals.

(** * Properties *)

(** ** The descending sort *)

Section sorted_reverse_facts.
Context {A : Type} (lt : A → A → bool).

Lemma insert_desc_perm x l : insert_desc lt x l ≡ₚ x :: l.
Proof.
  induction l as [|y l IH]; simpl; [done|].
  destruct (lt x y); [|done].
  rewrite IH. apply Permutation_swap.
Qed.

Lemma sorted_reverse_perm l : sorted_reverse lt l ≡ₚ l.
Proof.
  induction l as [|x l IH]; simpl; [done|].
  rewrite insert_desc_perm. by rewrite IH.
Qed.

Hypothesis lt_asym : ∀ a b, lt a b = true → lt b a = false.
Hypothesis lt_negtrans :
  ∀ a b c, lt a b = false → lt b c = false → lt a c = false.

Lemma insert_desc_sorted x l :
  StronglySorted (not_below lt) l → StronglySorted (not_below lt) (insert_desc lt x l).
Proof.
  induction 1 as [|y l Hs IH Hy]; simpl.
  - repeat constructor.
  - destruct (lt x y) eqn:Hxy.
    + constructor; [done|].
      rewrite insert_desc_perm. constructor; [|done].
      by apply lt_asym.
    + constructor; [by constructor|].
      constructor; [done|].
      eapply Forall_impl; [exact Hy|].
      intros z Hz. by eapply lt_negtrans.
Qed.

Lemma sorted_reverse_sorted l : StronglySorted (not_below lt) (sorted_reverse lt l).
Proof.
  induction l as [|x l IH]; simpl; [constructor|].
  by apply insert_desc_sorted.
Qed.
End sorted_reverse_facts.

(** ** Scoring engine *)

Lemma StronglySorted_lookup_lt {A} (R : relation A) (l : list A) i j a b :
  StronglySorted R l → (i < j)%nat → l !! i = Some a → l !! j = Some b → R a b.
Proof.
  intros Hs. revert i j. induction Hs as [|x l Hs IH Hx]; intros i j Hij Hi Hj.
  - by rewrite lookup_nil in Hi.
  - destruct j as [|j]; [lia|]. simpl in Hj.
    destruct i as [|i]; simpl in Hi.
    + simplify_eq. rewrite Forall_forall in Hx. apply Hx.
      by eapply list_elem_of_lookup_2.
    + eapply (IH i j); [lia|done..].
Qed.

Lemma dom_foldl_bucket_add (ps : list player) (b : gmap Z (list player)) :
  dom (foldl bucket_add b ps) = dom b ∪ distinct_scores ps.
Proof.
  revert b. induction ps as [|p ps IH]; intros b; simpl.
  - unfold distinct_scores. simpl. set_solver.
  - rewrite IH. unfold bucket_add. rewrite dom_insert_L.
    unfold distinct_scores. simpl. set_solver.
Qed.

Lemma dom_bucket_of (ps : list player) :
  dom (bucket_of ps) = distinct_scores ps.
Proof.
  unfold bucket_of. rewrite dom_foldl_bucket_add, dom_empty_L. set_solver.
Qed.

Lemma elem_of_distinct_scores (ps : list player) (s : Z) :
  s ∈ distinct_scores ps ↔ ∃ p, p ∈ ps ∧ kicktipp_P p = s.
Proof.
  unfold distinct_scores. rewrite elem_of_list_to_set, list_elem_of_fmap.
  naive_solver.
Qed.

Lemma unique_scores_perm (b : gmap Z (list player)) :
  unique_scores b ≡ₚ elements (dom b).
Proof. apply sorted_reverse_perm. Qed.

Lemma unique_scores_NoDup (b : gmap Z (list player)) : NoDup (unique_scores b).
Proof. rewrite unique_scores_perm. apply NoDup_elements. Qed.

Lemma elem_of_unique_scores (ps : list player) (s : Z) :
  s ∈ unique_scores (bucket_of ps) ↔ ∃ p, p ∈ ps ∧ kicktipp_P p = s.
Proof.
  rewrite unique_scores_perm, elem_of_elements, dom_bucket_of.
  apply elem_of_distinct_scores.
Qed.

Lemma length_unique_scores (ps : list player) :
  length (unique_scores (bucket_of ps)) = size (distinct_scores ps).
Proof. by rewrite unique_scores_perm, dom_bucket_of. Qed.

Lemma unique_scores_descending (b : gmap Z (list player)) :
  StronglySorted (λ a b, b < a) (unique_scores b).
Proof.
  assert (Hs : StronglySorted (not_below Z.ltb) (unique_scores b)).
  { apply sorted_reverse_sorted.
    - intros x y. rewrite Z.ltb_lt, Z.ltb_ge. lia.
    - intros x y z. rewrite !Z.ltb_ge. lia. }
  pose proof (unique_scores_NoDup b) as Hnd.
  induction Hs as [|x l Hs IH Hx]; [constructor|].
  apply NoDup_cons in Hnd as [Hx' Hnd].
  constructor; [by apply IH|].
  apply Forall_forall. intros y Hy.
  rewrite Forall_forall in Hx. specialize (Hx y Hy).
  unfold not_below in Hx. apply Z.ltb_ge in Hx.
  assert (x ≠ y) by (intros ->; done). lia.
Qed.

Lemma score_to_dense_rank_snoc (l : list Z) (x : Z) :
  score_to_dense_rank (l ++ [x])
  = <[x := Z.of_nat (length l) + 1]> (score_to_dense_rank l).
Proof.
  unfold score_to_dense_rank, enumerate.
  rewrite imap_app, foldl_app. simpl. by rewrite Nat.add_0_r.
Qed.

Lemma score_to_dense_rank_lookup (l : list Z) (i : nat) (s : Z) :
  NoDup l → l !! i = Some s →
  score_to_dense_rank l !! s = Some (Z.of_nat i + 1).
Proof.
  revert i. induction l as [|x l IH] using rev_ind; intros i Hnd Hi.
  - by rewrite lookup_nil in Hi.
  - rewrite score_to_dense_rank_snoc.
    apply NoDup_app in Hnd as (Hnd & Hx & _).
    destruct (decide (i < length l)%nat) as [Hlt|Hge].
    + rewrite lookup_app_l in Hi by done.
      rewrite lookup_insert_ne; [by apply IH|].
      intros ->. apply (Hx s); [by eapply list_elem_of_lookup_2|set_solver].
    + rewrite lookup_app_r in Hi by lia.
      destruct (i - length l)%nat as [|k] eqn:Hk; simpl in Hi; [|by destruct k].
      simplify_eq. rewrite lookup_insert_eq. do 2 f_equal. lia.
Qed.

Lemma score_to_dense_rank_None (l : list Z) (s : Z) :
  s ∉ l → score_to_dense_rank l !! s = None.
Proof.
  induction l as [|x l IH] using rev_ind; intros Hs; [done|].
  rewrite score_to_dense_rank_snoc.
  rewrite lookup_insert_ne by set_solver. apply IH. set_solver.
Qed.

(** The rank map sends the score at position [i] of the descending
    distinct scores to [i + 1], and knows every score of the round. *)
Lemma rank_of_player (ps : list player) (p : player) :
  p ∈ ps →
  ∃ i : nat,
    unique_scores (bucket_of ps) !! i = Some (kicktipp_P p) ∧
    score_to_dense_rank (unique_scores (bucket_of ps)) !! kicktipp_P p
    = Some (Z.of_nat i + 1).
Proof.
  intros Hp.
  assert (Hin : kicktipp_P p ∈ unique_scores (bucket_of ps)).
  { apply elem_of_unique_scores. eauto. }
  apply list_elem_of_lookup in Hin as [i Hi].
  exists i. split; [done|].
  apply score_to_dense_rank_lookup; [apply unique_scores_NoDup|done].
Qed.

Lemma ladder_points_spec (ladder : list Z) (r : Z) :
  1 ≤ r →
  (r ≤ Z.of_nat (length ladder) →
     ladder !! Z.to_nat (r - 1) = Some (ladder_points ladder (r - 1))) ∧
  (Z.of_nat (length ladder) < r → ladder_points ladder (r - 1) = 0).
Proof.
  intros Hr. unfold ladder_points. split; intros H.
  - rewrite bool_decide_true by lia.
    destruct (lookup_lt_is_Some_2 ladder (Z.to_nat (r - 1))) as [x Hx]; [lia|].
    by rewrite Hx.
  - by rewrite bool_decide_false by lia.
Qed.

Lemma elem_of_apply_wurstliga_scoring ladder (players : list player) (s : scored) :
  s ∈ apply_wurstliga_scoring ladder players ↔
  ∃ p, p ∈ players ∧
    s = score_player ladder
          (score_to_dense_rank (unique_scores (bucket_of players))) p.
Proof.
  unfold apply_wurstliga_scoring. rewrite list_elem_of_fmap. naive_solver.
Qed.

(** The rank of a scored player is the 1-based position of its raw score
    among the descending distinct scores. *)
Lemma dense_rank_position ladder (players : list player) (s : scored) :
  s ∈ apply_wurstliga_scoring ladder players →
  ∃ i : nat,
    unique_scores (bucket_of players) !! i = Some (kicktipp_P (raw s)) ∧
    dense_rank s = Z.of_nat i + 1.
Proof.
  intros (p & Hp & ->)%elem_of_apply_wurstliga_scoring.
  destruct (rank_of_player players p Hp) as (i & Hi & Hr).
  exists i. simpl. by rewrite Hr.
Qed.

(** The rank map is a function of the set of distinct scores alone. *)
Lemma ranks_depend_on_distinct_scores (ps ps' : list player) :
  distinct_scores ps = distinct_scores ps' →
  unique_scores (bucket_of ps) = unique_scores (bucket_of ps').
Proof. intros H. unfold unique_scores. by rewrite !dom_bucket_of, H. Qed.

Lemma distinct_scores_perm (ps ps' : list player) :
  kicktipp_P <$> ps ≡ₚ kicktipp_P <$> ps' →
  distinct_scores ps = distinct_scores ps'.
Proof.
  intros H. unfold distinct_scores. apply set_eq. intros s.
  by rewrite !elem_of_list_to_set, H.
Qed.

(** Two runs over rounds with the same multiset of raw scores give
    players with the same raw score the same derived fields. *)
Lemma scoring_depends_on_score_multiset ladder (ps ps' : list player) p q :
  kicktipp_P <$> ps ≡ₚ kicktipp_P <$> ps' →
  kicktipp_P p = kicktipp_P q →
  let s := score_player ladder
             (score_to_dense_rank (unique_scores (bucket_of ps))) p in
  let s' := score_player ladder
              (score_to_dense_rank (unique_scores (bucket_of ps'))) q in
  dense_rank s = dense_rank s' ∧ wurstliga_pts s = wurstliga_pts s' ∧
  sts s = sts s' ∧ tv s = tv s' ∧ null_wurst s = null_wurst s'.
Proof.
  intros Hperm Hpq. simpl.
  rewrite (ranks_depend_on_distinct_scores ps ps')
    by by apply distinct_scores_perm.
  by rewrite Hpq.
Qed.

(** C1. Dense ranking: for every list of raw player records and every
    ladder the scoring engine keeps the records in place and
    - gives players with equal raw scores the same rank, and a player
      with a higher raw score a strictly smaller rank;
    - starts ranks at 1 and leaves no gap: every rank from 1 up to a
      player's rank is the rank of some player of the round;
    - sets league points to [ladder[rank-1]] when the rank is at most the
      ladder length and to 0 beyond it;
    - sets the top-scorer flag to 1 iff rank = 1, the zero-raw-score flag
      to 1 iff raw score = 0 and the zero-league-points flag to 1 iff
      league points = 0 (and to 0 otherwise). *)
Theorem C1_dense_rank_scoring (ladder : list Z) (players : list player) :
  let out := apply_wurstliga_scoring ladder players in
  raw <$> out = players ∧
  (∀ s t, s ∈ out → t ∈ out →
     (kicktipp_P (raw s) = kicktipp_P (raw t) → dense_rank s = dense_rank t) ∧
     (kicktipp_P (raw t) < kicktipp_P (raw s) → dense_rank s < dense_rank t)) ∧
  (∀ s, s ∈ out →
     1 ≤ dense_rank s ∧
     ∀ r, 1 ≤ r ≤ dense_rank s → ∃ t, t ∈ out ∧ dense_rank t = r) ∧
  (∀ s, s ∈ out →
     (dense_rank s ≤ Z.of_nat (length ladder) →
        ladder !! Z.to_nat (dense_rank s - 1) = Some (wurstliga_pts s)) ∧
     (Z.of_nat (length ladder) < dense_rank s → wurstliga_pts s = 0) ∧
     sts s = (if bool_decide (dense_rank s = 1) then 1 else 0) ∧
     tv s = (if bool_decide (kicktipp_P (raw s) = 0) then 1 else 0) ∧
     null_wurst s = (if bool_decide (wurstliga_pts s = 0) then 1 else 0)).
Proof.
  intros out.
  pose proof (unique_scores_descending (bucket_of players)) as Hdesc.
  pose proof (unique_scores_NoDup (bucket_of players)) as Hnd.
  split_and!.
  - unfold out, apply_wurstliga_scoring. rewrite <- list_fmap_compose.
    apply list_fmap_id.
  - intros s t Hs Ht. split.
    + intros Heq.
      apply elem_of_apply_wurstliga_scoring in Hs as (p & _ & ->).
      apply elem_of_apply_wurstliga_scoring in Ht as (q & _ & ->).
      simpl in *. by rewrite Heq.
    + intros Hlt.
      destruct (dense_rank_position _ _ _ Hs) as (i & Hi & ->).
      destruct (dense_rank_position _ _ _ Ht) as (j & Hj & ->).
      destruct (decide (i < j)%nat) as [|Hge]; [lia|].
      destruct (decide (i = j)) as [->|Hne]; [simplify_eq; lia|].
      pose proof (StronglySorted_lookup_lt _ _ j i _ _ Hdesc
                    ltac:(lia) Hj Hi) as Hji.
      simpl in Hji. lia.
  - intros s Hs.
    destruct (dense_rank_position _ _ _ Hs) as (i & Hi & Hrank).
    split; [lia|]. intros r Hr.
    destruct (lookup_lt_is_Some_2 (unique_scores (bucket_of players))
                (Z.to_nat (r - 1))) as [x Hx].
    { apply lookup_lt_Some in Hi. lia. }
    assert (Hin : x ∈ unique_scores (bucket_of players))
      by by eapply list_elem_of_lookup_2.
    apply elem_of_unique_scores in Hin as (q & Hq & <-).
    exists (score_player ladder
              (score_to_dense_rank (unique_scores (bucket_of players))) q).
    split; [apply elem_of_apply_wurstliga_scoring; eauto|].
    simpl. rewrite (score_to_dense_rank_lookup _ _ _ Hnd Hx).
    simpl. lia.
  - intros s Hs.
    destruct (dense_rank_position _ _ _ Hs) as (i & _ & Hrank).
    apply elem_of_apply_wurstliga_scoring in Hs as (p & _ & ->).
    simpl in *.
    destruct (ladder_points_spec ladder
                (default 999
                   (score_to_dense_rank (unique_scores (bucket_of players))
                      !! kicktipp_P p))) as [Hin Hout]; [lia|].
    split_and!; done.
Qed.

(** The end-to-end scenario of the specification: raw scores 12, 12, 8, 0
    on the ladder [10; 8; 6; 5]. *)
Example scoring_scenario :
  apply_wurstliga_scoring [10; 8; 6; 5]
    [Player (py "P1") 12; Player (py "P2") 12;
     Player (py "P3") 8; Player (py "P4") 0]
  = [Scored (Player (py "P1") 12) 1 10 1 0 0;
     Scored (Player (py "P2") 12) 1 10 1 0 0;
     Scored (Player (py "P3") 8) 2 8 0 0 0;
     Scored (Player (py "P4") 0) 3 6 0 1 0].
Proof. vm_compute. reflexivity. Qed.

(** C5. Determinism under input reordering: for every list of raw
    player records, every permutation of it and every ladder, the two
    runs give each player the same scored record (same dense rank,
    league points and flags), wherever its row stands in either input;
    the derived fields are a function of the player's raw score and of
    the raw scores present. *)
Theorem C5_scoring_permutation_invariant
    (ladder : list Z) (players players' : list player) :
  players ≡ₚ players' →
  apply_wurstliga_scoring ladder players
    ≡ₚ apply_wurstliga_scoring ladder players' ∧
  (∀ (i j : nat) (p : player),
     players !! i = Some p → players' !! j = Some p →
     apply_wurstliga_scoring ladder players !! i
     = apply_wurstliga_scoring ladder players' !! j) ∧
  (∀ s t, s ∈ apply_wurstliga_scoring ladder players →
          t ∈ apply_wurstliga_scoring ladder players' →
          kicktipp_P (raw s) = kicktipp_P (raw t) →
          dense_rank s = dense_rank t ∧ wurstliga_pts s = wurstliga_pts t ∧
          sts s = sts t ∧ tv s = tv t ∧ null_wurst s = null_wurst t).
Proof.
  intros Hperm.
  assert (Hscores : kicktipp_P <$> players ≡ₚ kicktipp_P <$> players')
    by by rewrite Hperm.
  assert (Hranks : unique_scores (bucket_of players)
                   = unique_scores (bucket_of players')).
  { by apply ranks_depend_on_distinct_scores, distinct_scores_perm. }
  split; [|split].
  - unfold apply_wurstliga_scoring. rewrite Hranks. by apply fmap_Permutation.
  - intros i j p Hi Hj. unfold apply_wurstliga_scoring.
    by rewrite !list_lookup_fmap, Hi, Hj, Hranks.
  - intros s t (p & _ & ->)%elem_of_apply_wurstliga_scoring
                (q & _ & ->)%elem_of_apply_wurstliga_scoring Heq.
    by apply scoring_depends_on_score_multiset.
Qed.

Lemma C5_scoring_permutation_invariant_witness :
  let ps := [Player (py "A") 3; Player (py "B") 7; Player (py "C") 3] in
  let ps' := [Player (py "B") 7; Player (py "C") 3; Player (py "A") 3] in
  ps ≡ₚ ps' ∧
  apply_wurstliga_scoring WURSTLIGA_LADDER ps !! 0%nat
  = apply_wurstliga_scoring WURSTLIGA_LADDER ps' !! 2%nat.
Proof.
  intros ps ps'.
  assert (Hperm : ps ≡ₚ ps').
  { unfold ps, ps'. apply (Permutation_app_comm [_] [_; _]). }
  split; [exact Hperm|].
  pose proof (C5_scoring_permutation_invariant WURSTLIGA_LADDER ps ps' Hperm)
    as (_ & H & _).
  apply (H 0%nat 2%nat (Player (py "A") 3)); reflexivity.
Defined.

(** C10. The fallback rank 999 is never taken: the raw score of every
    player of the round is a key of the grouping map and of the
    score-to-rank map built from that round, so each assigned dense rank
    lies between 1 and the number of distinct raw scores present. *)
Theorem C10_rank_fallback_unreachable
    (ladder : list Z) (players : list player) (s : scored) :
  s ∈ apply_wurstliga_scoring ladder players →
  kicktipp_P (raw s) ∈ dom (bucket_of players) ∧
  score_to_dense_rank (unique_scores (bucket_of players))
    !! kicktipp_P (raw s) = Some (dense_rank s) ∧
  1 ≤ dense_rank s ≤ Z.of_nat (size (distinct_scores players)).
Proof.
  intros Hs.
  destruct (dense_rank_position _ _ _ Hs) as (i & Hi & Hrank).
  pose proof (lookup_lt_Some _ _ _ Hi) as Hlen.
  rewrite length_unique_scores in Hlen.
  apply elem_of_apply_wurstliga_scoring in Hs as (p & Hp & ->).
  destruct (rank_of_player players p Hp) as (k & Hk & Hr).
  simpl in *. rewrite Hr. rewrite Hr in Hrank. simpl in Hrank.
  split; [|split; [done|simpl; lia]].
  rewrite dom_bucket_of. apply elem_of_distinct_scores. eauto.
Qed.

Lemma C10_rank_fallback_unreachable_witness :
  let ps := [Player (py "A") 3; Player (py "B") 7; Player (py "C") 3] in
  let s := Scored (Player (py "C") 3) 2 8 0 0 0 in
  s ∈ apply_wurstliga_scoring WURSTLIGA_LADDER ps ∧
  1 ≤ dense_rank s ≤ Z.of_nat (size (distinct_scores ps)).
Proof.
  intros ps s.
  assert (Hs : s ∈ apply_wurstliga_scoring WURSTLIGA_LADDER ps).
  { vm_compute. apply list_elem_of_In. simpl. auto. }
  split; [exact Hs|].
  apply (C10_rank_fallback_unreachable WURSTLIGA_LADDER ps s Hs).
Defined.

(** ** Round status resolver *)

Lemma results_done_bounds `{Runtime} (matches : list match_record) :
  0 ≤ results_done matches ≤ Z.of_nat (length matches).
Proof.
  unfold results_done. pose proof (List.filter_length_le
    (λ m, NUM_RE (result m)) matches). lia.
Qed.

Lemma expected_total_pos (matches : list match_record) (total_slots : Z) :
  0 < expected_total matches total_slots.
Proof.
  unfold expected_total, MATCHES_PER_SPIELTAG.
  repeat case_bool_decide; lia.
Qed.

(** The override fires only where the rule already says [not_started]. *)
Lemma derive_spieltag_status_naive `{Runtime}
    (matches : list match_record) (total_slots : Z) (players : list scored) :
  derive_spieltag_status matches total_slots players
  = naive_status (results_done matches) (expected_total matches total_slots).
Proof.
  unfold derive_spieltag_status, all_zero_no_results, naive_status.
  destruct (bool_decide (results_done matches = 0)); [|by rewrite andb_false_r].
  by destruct (_ && _).
Qed.

(** The status examples of the specification, 9 expected results. *)
Example status_0_of_9 : naive_status 0 9 = not_started.
Proof. reflexivity. Qed.
Example status_4_of_9 : naive_status 4 9 = in_progress.
Proof. reflexivity. Qed.
Example status_9_of_9 : naive_status 9 9 = complete.
Proof. reflexivity. Qed.

(** C2. Round status rule: with [completed] the number of matches whose
    result matches the score pattern and [expected] the table row count
    if positive, otherwise the match-list length if non-zero, otherwise
    the configured matches per round, the resolver returns not_started
    when completed = 0, in_progress when 0 < completed < expected and
    complete when completed >= expected, for every match list, row count
    and player list. *)
Theorem C2_round_status_rule `{Runtime}
    (matches : list match_record) (total_slots : Z) (players : list scored) :
  let completed := results_done matches in
  let expected := expected_total matches total_slots in
  let st := derive_spieltag_status matches total_slots players in
  ((0 < total_slots → expected = total_slots) ∧
   (total_slots ≤ 0 → matches ≠ [] → expected = Z.of_nat (length matches)) ∧
   (total_slots ≤ 0 → matches = [] → expected = MATCHES_PER_SPIELTAG)) ∧
  (completed = 0 → st = not_started) ∧
  (0 < completed < expected → st = in_progress) ∧
  (expected ≤ completed → st = complete).
Proof.
  intros completed expected st.
  pose proof (expected_total_pos matches total_slots) as Hpos.
  split; [|unfold st; rewrite derive_spieltag_status_naive;
           fold completed expected; unfold naive_status;
           repeat split; intros; repeat case_bool_decide; (done || lia)].
  unfold expected, expected_total. repeat split.
  - intros. by rewrite bool_decide_true.
  - intros ? Hne. rewrite bool_decide_false by lia.
    rewrite bool_decide_true; [done|]. destruct matches; simpl; [done|lia].
  - intros ? ->. rewrite bool_decide_false by lia.
    by rewrite bool_decide_false by (simpl; lia).
Qed.

(** C6. Override: whenever the player list is non-empty, every raw score
    is 0 and no result is complete, the resolver returns not_started,
    whatever the expected slot count; and the override never moves a
    round forward: the status returned equals the status of the rule
    without the override, so it is never more advanced than it, and
    where the override fires the status is not_started. *)
Theorem C6_override_only_narrows `{Runtime}
    (matches : list match_record) (total_slots : Z) (players : list scored) :
  let st := derive_spieltag_status matches total_slots players in
  let naive :=
    naive_status (results_done matches) (expected_total matches total_slots) in
  (players ≠ [] →
   Forall (λ p, kicktipp_P (raw p) = 0) players →
   results_done matches = 0 →
   st = not_started) ∧
  (all_zero_no_results players (results_done matches) = true →
   st = not_started) ∧
  st = naive ∧
  status_level st ≤ status_level naive.
Proof.
  intros st naive.
  assert (Heq : st = naive) by apply derive_spieltag_status_naive.
  repeat split.
  - intros _ _ Hdone. rewrite Heq. unfold naive, naive_status.
    by rewrite bool_decide_true.
  - intros Hov. unfold st, derive_spieltag_status. by rewrite Hov.
  - done.
  - rewrite Heq. lia.
Qed.

(** ** Extractors: no table *)

Lemma head_filter_None {A} (f : A → bool) (l : list A) :
  Forall (λ x, f x = false) l → head (List.filter f l) = None.
Proof.
  induction 1 as [|x l Hx _ IH]; simpl; [done|]. by rewrite Hx.
Qed.

Lemma head_filter_Some {A} (f : A → bool) (l : list A) (x : A) :
  head (List.filter f l) = Some x → x ∈ l ∧ f x = true.
Proof.
  induction l as [|y l IH]; simpl; [done|].
  destruct (f y) eqn:Hy; simpl.
  - intros [= ->]. split; [left|done].
  - intros [??]%IH. split; [by right|done].
Qed.

Lemma parse_matches_no_table `{Runtime} (soup : node) :
  Forall (λ tbl, is_match_table tbl = false) (find_all "table" soup) →
  parse_matches soup = ([], 0).
Proof.
  intros Hno. unfold parse_matches, find_match_table.
  by rewrite head_filter_None.
Qed.

Lemma parse_players_no_table `{Runtime} (soup : node) :
  Forall (λ tbl, is_player_table tbl = false) (find_all "table" soup) →
  parse_players soup = [].
Proof.
  intros Hno. unfold parse_players, find_player_table.
  by rewrite head_filter_None.
Qed.

(** A document with neither table assembles to a round that has not
    started, without matches or players. *)
Lemma parse_spieltag_no_tables `{Runtime} (soup : node) (spieltag : Z) :
  Forall (λ tbl, is_match_table tbl = false) (find_all "table" soup) →
  Forall (λ tbl, is_player_table tbl = false) (find_all "table" soup) →
  parse_spieltag soup spieltag
  = RoundDocument SEASON spieltag not_started [] [].
Proof.
  intros Hm Hp. unfold parse_spieltag.
  by rewrite parse_matches_no_table, parse_players_no_table.
Qed.



(** ** Strings and the score pattern *)

Lemma lstrip_head (s : pystr) c s' : lstrip s = c :: s' → isspace c = false.
Proof.
  induction s as [|x s IH]; simpl; [done|].
  destruct (isspace x) eqn:Hx; [done|]. by intros [= <- _].
Qed.

Lemma lstrip_snoc (s : pystr) c :
  isspace c = false → lstrip (s ++ [c]) = lstrip s ++ [c].
Proof.
  intros Hc. induction s as [|x s IH]; simpl; [by rewrite Hc|].
  by destruct (isspace x).
Qed.

Lemma rstrip_last (s : pystr) c s' : rstrip s = s' ++ [c] → isspace c = false.
Proof.
  unfold rstrip. intros Hs.
  apply (f_equal reverse) in Hs.
  rewrite reverse_involutive, reverse_snoc in Hs.
  by eapply lstrip_head.
Qed.

Lemma rstrip_cons (s : pystr) c :
  isspace c = false → ∃ s', rstrip (c :: s) = c :: s'.
Proof.
  intros Hc. unfold rstrip. rewrite reverse_cons, lstrip_snoc by done.
  rewrite reverse_snoc. eauto.
Qed.

(** A stripped string neither starts nor ends with white space. *)
Lemma strip_head (s : pystr) c s' : strip s = c :: s' → isspace c = false.
Proof.
  unfold strip. destruct (lstrip s) as [|x t] eqn:Ht; [done|].
  pose proof (lstrip_head _ _ _ Ht) as Hx.
  destruct (rstrip_cons t x Hx) as [t' ->]. by intros [= <- _].
Qed.

Lemma strip_last (s : pystr) c s' : strip s = s' ++ [c] → isspace c = false.
Proof. apply rstrip_last. Qed.

Lemma re_star_spec cls k (s : pystr) :
  re_star cls k s = true ↔
  ∃ s1 s2, s = s1 ++ s2 ∧ Forall (λ c, cls c = true) s1 ∧ k s2 = true.
Proof.
  induction s as [|c s IH]; simpl.
  - rewrite orb_false_r. split.
    + intros Hk. by exists [], [].
    + intros (s1 & s2 & Hs & _ & Hk).
      symmetry in Hs. apply app_eq_nil in Hs as [-> ->]. done.
  - rewrite orb_true_iff, andb_true_iff, IH. split.
    + intros [Hk|(Hc & s1 & s2 & -> & Hs1 & Hk)].
      * by exists [], (c :: s).
      * exists (c :: s1), s2. by repeat constructor.
    + intros (s1 & s2 & Hs & Hs1 & Hk).
      destruct s1 as [|x s1]; simpl in Hs; [left; by subst|].
      injection Hs as -> ->. apply Forall_cons in Hs1 as [Hx Hs1].
      right. split; [done|]. by exists s1, s2.
Qed.

Lemma re_plus_spec cls k (s : pystr) :
  re_plus cls k s = true ↔
  ∃ s1 s2, s = s1 ++ s2 ∧ s1 ≠ [] ∧ Forall (λ c, cls c = true) s1 ∧
           k s2 = true.
Proof.
  destruct s as [|c s]; simpl.
  - split; [done|]. intros (s1 & s2 & Hs & Hne & _).
    symmetry in Hs. by apply app_eq_nil in Hs as [-> _].
  - rewrite andb_true_iff, re_star_spec. split.
    + intros (Hc & s1 & s2 & -> & Hs1 & Hk).
      exists (c :: s1), s2. by repeat constructor.
    + intros (s1 & s2 & Hs & Hne & Hs1 & Hk).
      destruct s1 as [|x s1]; [done|]. simpl in Hs.
      injection Hs as -> ->. apply Forall_cons in Hs1 as [Hx Hs1].
      split; [done|]. by exists s1, s2.
Qed.

Lemma re_char_spec c0 k (s : pystr) :
  re_char c0 k s = true ↔ ∃ s', s = c0 :: s' ∧ k s' = true.
Proof.
  destruct s as [|c s]; simpl; [naive_solver|].
  rewrite andb_true_iff, N.eqb_eq. naive_solver.
Qed.

Lemma re_end_spec (s : pystr) : re_end s = true ↔ s = [] ∨ s = [10%N].
Proof.
  unfold re_end. by rewrite orb_true_iff, !bool_decide_eq_true.
Qed.

(** The language of [NUM_RE]. *)
Lemma NUM_RE_spec `{Runtime} (s : pystr) :
  NUM_RE s = true ↔
  ∃ w0 a w1 w2 b w3 e,
    s = w0 ++ a ++ w1 ++ [58%N] ++ w2 ++ b ++ w3 ++ e ∧
    blanks w0 ∧ digits a ∧ blanks w1 ∧ blanks w2 ∧ digits b ∧ blanks w3 ∧
    (e = [] ∨ e = [10%N]).
Proof.
  unfold NUM_RE, digits, blanks.
  rewrite re_star_spec.
  setoid_rewrite re_plus_spec. setoid_rewrite re_star_spec.
  setoid_rewrite re_char_spec. setoid_rewrite re_star_spec.
  setoid_rewrite re_plus_spec. setoid_rewrite re_star_spec.
  setoid_rewrite re_end_spec.
  split.
  - intros (w0 & ? & -> & Hw0 & a & ? & -> & Ha & Ha' & w1 & ? & -> & Hw1 &
            ? & -> & w2 & ? & -> & Hw2 & b & ? & -> & Hb & Hb' &
            w3 & e & -> & Hw3 & He).
    by exists w0, a, w1, w2, b, w3, e.
  - intros (w0 & a & w1 & w2 & b & w3 & e & -> & Hw0 & [Ha Ha'] & Hw1 & Hw2 &
            [Hb Hb'] & Hw3 & He).
    exists w0, (a ++ w1 ++ [58%N] ++ w2 ++ b ++ w3 ++ e).
    split; [done|]. split; [done|].
    exists a, (w1 ++ [58%N] ++ w2 ++ b ++ w3 ++ e).
    split; [done|]. split; [done|]. split; [done|].
    exists w1, ([58%N] ++ w2 ++ b ++ w3 ++ e).
    split; [done|]. split; [done|].
    exists (w2 ++ b ++ w3 ++ e). split; [done|].
    exists w2, (b ++ w3 ++ e). split; [done|]. split; [done|].
    exists b, (w3 ++ e). split; [done|]. split; [done|]. split; [done|].
    by exists w3, e.
Qed.

(** On a string without white space at either end, [NUM_RE] accepts
    exactly the spaced scores. *)
Lemma NUM_RE_stripped `{Runtime} (s : pystr) :
  (∀ c s', s = c :: s' → isspace c = false) →
  (∀ c s', s = s' ++ [c] → isspace c = false) →
  NUM_RE s = true ↔ spaced_score s.
Proof.
  intros Hhead Hlast. rewrite NUM_RE_spec. unfold spaced_score. split.
  - intros (w0 & a & w1 & w2 & b & w3 & e & Hs & Hw0 & Ha & Hw1 & Hw2 & Hb &
            Hw3 & He).
    assert (w0 = []) as ->.
    { destruct w0 as [|c w0]; [done|]. apply Forall_cons in Hw0 as [Hc _].
      rewrite (Hhead c _ Hs) in Hc. done. }
    assert (w3 ++ e = []) as Htail.
    { destruct (w3 ++ e) as [|x t _] eqn:Ht using rev_ind; [done|]. exfalso.
      assert (isspace x = true) as Hsp.
      { destruct He as [->| ->].
        - rewrite app_nil_r in Ht. subst w3.
          by apply Forall_app in Hw3 as [_ [? _]%Forall_cons].
        - apply app_inj_tail in Ht as [_ <-]. done. }
      rewrite (Hlast x (a ++ w1 ++ [58%N] ++ w2 ++ b ++ t)) in Hsp; [done|].
      rewrite Hs. by rewrite <- !app_assoc. }
    exists a, w1, w2, b. split; [|done].
    rewrite Hs, Htail. by rewrite app_nil_r.
  - intros (a & w1 & w2 & b & -> & Ha & Hw1 & Hw2 & Hb).
    exists [], a, w1, w2, b, [], []. unfold blanks.
    rewrite !app_nil_r.
    split_and!; [done|constructor|done..|constructor|by left].
Qed.

Lemma normalize_result_spec `{Runtime} (ergebnis : pystr) :
  (spaced_score (strip ergebnis) ∧ normalize_result ergebnis = strip ergebnis) ∨
  (¬ spaced_score (strip ergebnis) ∧ normalize_result ergebnis = []).
Proof.
  unfold normalize_result.
  pose proof (NUM_RE_stripped (strip ergebnis)
                (strip_head ergebnis) (strip_last ergebnis)) as Hre.
  destruct (NUM_RE (strip ergebnis)).
  - left. split; [by apply Hre|done].
  - right. split; [|done]. intros Hs. by apply Hre in Hs.
Qed.

(** The form in the words of the specification is the spaced score
    without white space. *)
Lemma digits_colon_digits_spec `{Runtime} (s : pystr) :
  digits_colon_digits s = true ↔
  ∃ a b, s = a ++ [58%N] ++ b ∧ digits a ∧ digits b.
Proof.
  unfold digits_colon_digits, digits. rewrite re_plus_spec.
  setoid_rewrite re_char_spec. setoid_rewrite re_plus_spec.
  setoid_rewrite bool_decide_eq_true. split.
  - intros (a & ? & -> & Ha & Ha' & ? & -> & b & ? & -> & Hb & Hb' & ->).
    exists a, b. by rewrite app_nil_r.
  - intros (a & b & -> & [Ha Ha'] & [Hb Hb']).
    exists a, ([58%N] ++ b). repeat split; [done..|].
    exists b. split; [done|]. exists b, []. by rewrite app_nil_r.
Qed.

Lemma digits_colon_digits_spaced `{Runtime} (s : pystr) :
  digits_colon_digits s = true → spaced_score s.
Proof.
  intros (a & b & -> & Ha & Hb)%digits_colon_digits_spec.
  exists a, [], [], b. unfold blanks.
  split_and!; [done|done|constructor|constructor|done].
Qed.

(** ** Match extractor *)

Lemma elem_of_parse_matches `{Runtime} (soup : node) (m : match_record) :
  m ∈ (parse_matches soup).1 →
  ∃ match_table i tr termin heim gast ergebnis rest,
    find_match_table soup = Some match_table ∧
    tr ∈ find_all "tr" (default match_table (find "tbody" match_table)) ∧
    row_cells tr = termin :: heim :: gast :: ergebnis :: rest ∧
    m = MatchRecord i (kickoff_isoformat termin) heim gast
          (normalize_result ergebnis).
Proof.
  unfold parse_matches.
  destruct (find_match_table soup) as [tbl|]; simpl; [|by intros ?%elem_of_nil].
  intros ([i tr] & Hrow & Hm)%list_elem_of_omap.
  unfold enumerate1 in Hrow.
  apply list_elem_of_lookup in Hrow as [k Hk].
  apply list_lookup_imap_Some in Hk as (tr' & Htr & [= -> ->]).
  simpl in Hm.
  destruct (row_cells tr') as [|termin [|heim [|gast [|ergebnis rest]]]] eqn:Hc;
    try done.
  injection Hm as <-.
  exists tbl, (Z.of_nat k + 1), tr', termin, heim, gast, ergebnis, rest.
  repeat split; [|done]. by eapply list_elem_of_lookup_2.
Qed.

(** The records of the match extractor are exactly the records of the
    rows of the match table that have four cells or more, each under
    the number of its row. *)
Lemma parse_matches_rows `{Runtime} (soup : node) (m : match_record) :
  m ∈ (parse_matches soup).1 ↔
  ∃ match_table (k : nat) tr termin heim gast ergebnis rest,
    find_match_table soup = Some match_table ∧
    find_all "tr" (default match_table (find "tbody" match_table)) !! k
    = Some tr ∧
    row_cells tr = termin :: heim :: gast :: ergebnis :: rest ∧
    m = MatchRecord (Z.of_nat k + 1) (kickoff_isoformat termin) heim gast
          (normalize_result ergebnis).
Proof.
  unfold parse_matches. split.
  - destruct (find_match_table soup) as [tbl|]; simpl;
      [|by intros ?%elem_of_nil].
    intros ([i tr] & Hrow & Hm)%list_elem_of_omap.
    unfold enumerate1 in Hrow.
    apply list_elem_of_lookup in Hrow as [k Hk].
    apply list_lookup_imap_Some in Hk as (tr' & Htr & [= -> ->]).
    simpl in Hm.
    destruct (row_cells tr') as [|termin [|heim [|gast [|ergebnis rest]]]]
      eqn:Hc; try done.
    injection Hm as <-.
    by exists tbl, k, tr', termin, heim, gast, ergebnis, rest.
  - intros (tbl & k & tr & termin & heim & gast & ergebnis & rest &
            -> & Hk & Hcells & ->).
    simpl. apply list_elem_of_omap. exists (Z.of_nat k + 1, tr). split.
    + apply list_elem_of_lookup. exists k. unfold enumerate1.
      by rewrite list_lookup_imap, Hk.
    + simpl. by rewrite Hcells.
Qed.

(** C7 (as the code has it).  Every match record of the match extractor
    has a result that is either empty or a spaced score: digits, a
    colon, digits, with optional white space on either side of the colon
    and nothing else.  Each record is the record of a row of the match
    table of the document, the row its row number names, with four
    cells or more: its result is the stripped fourth cell of that row
    when that is a spaced score and the empty string otherwise.  And
    every such row of the match table has its record: no result cell of
    the table is lost or stored in another way. *)
Theorem C7_result_empty_or_spaced_score `{Runtime} (soup : node) :
  (∀ m, m ∈ (parse_matches soup).1 →
     (result m = [] ∨ spaced_score (result m)) ∧
     ∃ match_table (k : nat) tr termin heim gast ergebnis rest,
       find_match_table soup = Some match_table ∧
       find_all "tr" (default match_table (find "tbody" match_table)) !! k
       = Some tr ∧
       row_cells tr = termin :: heim :: gast :: ergebnis :: rest ∧
       kicktipp_row m = Z.of_nat k + 1 ∧
       home m = heim ∧ away m = gast ∧
       (spaced_score (strip ergebnis) → result m = strip ergebnis) ∧
       (¬ spaced_score (strip ergebnis) → result m = [])) ∧
  (∀ match_table (k : nat) tr termin heim gast ergebnis rest,
     find_match_table soup = Some match_table →
     find_all "tr" (default match_table (find "tbody" match_table)) !! k
     = Some tr →
     row_cells tr = termin :: heim :: gast :: ergebnis :: rest →
     ∃ m, m ∈ (parse_matches soup).1 ∧
          kicktipp_row m = Z.of_nat k + 1 ∧
          home m = heim ∧ away m = gast ∧
          (spaced_score (strip ergebnis) → result m = strip ergebnis) ∧
          (¬ spaced_score (strip ergebnis) → result m = [])).
Proof.
  split.
  - intros m (tbl & k & tr & termin & heim & gast & ergebnis & rest &
              Htbl & Hk & Hcells & ->)%parse_matches_rows.
    simpl. destruct (normalize_result_spec ergebnis) as [[Hs Hn]|[Hs Hn]].
    + split; [right; by rewrite Hn|].
      exists tbl, k, tr, termin, heim, gast, ergebnis, rest.
      split_and!; done.
    + split; [by left|].
      exists tbl, k, tr, termin, heim, gast, ergebnis, rest.
      split_and!; done.
  - intros tbl k tr termin heim gast ergebnis rest Htbl Hk Hcells.
    exists (MatchRecord (Z.of_nat k + 1) (kickoff_isoformat termin) heim gast
              (normalize_result ergebnis)).
    split.
    { apply parse_matches_rows.
      by exists tbl, k, tr, termin, heim, gast, ergebnis, rest. }
    simpl. destruct (normalize_result_spec ergebnis) as [[Hs Hn]|[Hs Hn]].
    + split_and!; done.
    + split_and!; done.
Qed.

Lemma C7_result_empty_or_spaced_score_witness :
  let soup := fixtures_page "2 : 0" in
  let m := MatchRecord 1 None (py "FCB") (py "BVB") (py "2 : 0") in
  m ∈ (parse_matches (H:=ascii_runtime) soup).1 ∧
  (result m = [] ∨ spaced_score (H:=ascii_runtime) (result m)) ∧
  ∃ m', m' ∈ (parse_matches (H:=ascii_runtime) soup).1 ∧
        kicktipp_row m' = 1 ∧
        (spaced_score (H:=ascii_runtime) (strip (py "2 : 0")) →
         result m' = strip (py "2 : 0")).
Proof.
  intros soup m.
  pose proof (C7_result_empty_or_spaced_score (H:=ascii_runtime) soup)
    as [Hrecords Hrows].
  assert (Hm : m ∈ (parse_matches (H:=ascii_runtime) soup).1).
  { vm_compute. apply list_elem_of_In. simpl. auto. }
  split; [exact Hm|]. split; [apply (Hrecords m Hm)|].
  destruct (Hrows
              (Tag "table"
                 [Tag "thead"
                    [Tag "tr" [th "Termin"; th "Heim"; th "Gast";
                               th "Ergebnis"]];
                  Tag "tbody"
                    [Tag "tr" [td "offen"; td "FCB"; td "BVB"; td "2 : 0"]]])
              0%nat
              (Tag "tr" [td "offen"; td "FCB"; td "BVB"; td "2 : 0"])
              (py "offen") (py "FCB") (py "BVB") (py "2 : 0") [])
    as (m' & Hm' & Hrow & _ & _ & Hkept & _); [reflexivity..|].
  exists m'. split; [exact Hm'|]. split; [exact Hrow|exact Hkept].
Defined.

(** The claim as the specification words it fails: the result cell
    [2 : 0] is kept as it is, and it is neither empty nor digits, a colon
    and digits with no other character. *)
Lemma C7_counterexample :
  ¬ (∀ (H : Runtime) (soup : node) (m : match_record),
       m ∈ (parse_matches soup).1 →
       result m = [] ∨ digits_colon_digits (result m) = true).
Proof.
  intros Hclaim.
  destruct (Hclaim ascii_runtime (fixtures_page "2 : 0")
              (MatchRecord 1 None (py "FCB") (py "BVB") (py "2 : 0")))
    as [Hempty|Hform].
  - vm_compute. apply list_elem_of_In. simpl. auto.
  - discriminate Hempty.
  - vm_compute in Hform. discriminate Hform.
Qed.

(** ** Player score extractor *)

Lemma name_index_nonneg (headers : list pystr) : 0 ≤ name_index headers.
Proof.
  unfold name_index. destruct (list_find _ _) as [[i ?]|]; [lia|].
  case_bool_decide; lia.
Qed.

Lemma p_index_nonneg (headers : list pystr) : 0 ≤ p_index headers.
Proof.
  unfold p_index.
  destruct (last _) as [i|] eqn:Hlast; [|lia].
  apply last_Some_elem_of in Hlast.
  apply list_elem_of_omap in Hlast as ([k h] & Hkh & Hi).
  unfold enumerate in Hkh. apply list_elem_of_lookup in Hkh as [n Hn].
  apply list_lookup_imap_Some in Hn as (? & _ & [= -> ->]).
  case_bool_decide; [|done]. injection Hi as <-. lia.
Qed.

Lemma parse_player_row_Some `{Runtime} (name_idx p_idx : Z) (tr : node) p :
  parse_player_row name_idx p_idx tr = Some p →
  ∃ name_cell p_cell,
    row_cells tr !! Z.to_nat name_idx = Some name_cell ∧
    row_cells tr !! Z.to_nat p_idx = Some p_cell ∧
    strip name_cell ≠ [] ∧
    p = Player (strip name_cell) (default 0 (int (strip p_cell))).
Proof.
  unfold parse_player_row. destruct (_ || _); [done|].
  destruct (row_cells tr !! Z.to_nat name_idx) as [name_cell|]; [|done].
  destruct (row_cells tr !! Z.to_nat p_idx) as [p_cell|]; [|done].
  case_bool_decide; [|done]. intros [= <-]. by exists name_cell, p_cell.
Qed.

Lemma parse_player_row_kept `{Runtime} (name_idx p_idx : Z) (tr : node)
    name_cell p_cell :
  0 ≤ name_idx → 0 ≤ p_idx →
  row_cells tr !! Z.to_nat name_idx = Some name_cell →
  row_cells tr !! Z.to_nat p_idx = Some p_cell →
  strip name_cell ≠ [] →
  parse_player_row name_idx p_idx tr
  = Some (Player (strip name_cell) (default 0 (int (strip p_cell)))).
Proof.
  intros Hn Hp Hname Hpc Hne. unfold parse_player_row.
  pose proof (lookup_lt_Some _ _ _ Hname).
  pose proof (lookup_lt_Some _ _ _ Hpc).
  rewrite bool_decide_false by (intros Hnil; rewrite Hnil in Hname; done).
  rewrite bool_decide_false by lia. simpl.
  rewrite Hname, Hpc. by rewrite bool_decide_true.
Qed.

(** C8 (as the code has it).  Every raw player record of the player
    score extractor has a non-empty name, the stripped name cell of its
    row, and an integer raw score: the value the integer conversion
    reads from the stripped points cell, of either sign, and 0 when the
    conversion rejects the cell.  A rejected points cell never drops
    the row: every row of the table with both cells and a non-empty
    stripped name yields its record. *)
Theorem C8_player_records `{Runtime} (soup : node) :
  (∀ p, p ∈ parse_players soup →
     name p ≠ [] ∧
     ∃ player_table tr name_cell p_cell,
       find_player_table soup = Some player_table ∧
       tr ∈ find_all "tr"
              (default player_table (find "tbody" player_table)) ∧
       row_cells tr !! Z.to_nat (name_index (header_cells player_table))
       = Some name_cell ∧
       row_cells tr !! Z.to_nat (p_index (header_cells player_table))
       = Some p_cell ∧
       name p = strip name_cell ∧
       (∀ v, int (strip p_cell) = Some v → kicktipp_P p = v) ∧
       (int (strip p_cell) = None → kicktipp_P p = 0)) ∧
  (∀ player_table tr name_cell p_cell,
     find_player_table soup = Some player_table →
     tr ∈ find_all "tr" (default player_table (find "tbody" player_table)) →
     row_cells tr !! Z.to_nat (name_index (header_cells player_table))
     = Some name_cell →
     row_cells tr !! Z.to_nat (p_index (header_cells player_table))
     = Some p_cell →
     strip name_cell ≠ [] →
     Player (strip name_cell) (default 0 (int (strip p_cell)))
       ∈ parse_players soup).
Proof.
  unfold parse_players. split.
  - intros p Hp.
    destruct (find_player_table soup) as [tbl|]; [|by apply elem_of_nil in Hp].
    apply list_elem_of_omap in Hp as (tr & Htr & Hrow).
    apply parse_player_row_Some in Hrow
      as (name_cell & p_cell & Hn & Hpc & Hne & ->).
    split; [done|].
    exists tbl, tr, name_cell, p_cell. simpl.
    split_and!; try done.
    + by intros v ->.
    + by intros ->.
  - intros tbl tr name_cell p_cell -> Htr Hn Hpc Hne.
    apply list_elem_of_omap. exists tr. split; [done|].
    apply parse_player_row_kept; auto using name_index_nonneg, p_index_nonneg.
Qed.

Lemma C8_player_records_witness :
  Player (py "Al") 0 ∈ parse_players (H:=ascii_runtime) (players_page "Al" "x") ∧
  name (Player (py "Al") 0) ≠ [].
Proof.
  assert (Hp : Player (py "Al") 0
               ∈ parse_players (H:=ascii_runtime) (players_page "Al" "x")).
  { vm_compute. apply list_elem_of_In. simpl. auto. }
  split; [exact Hp|].
  apply (proj1 (C8_player_records (H:=ascii_runtime) _) _ Hp).
Defined.

(** The claim as the specification words it fails: a points cell [-5]
    gives the raw score -5. *)
Lemma C8_counterexample :
  ¬ (∀ (H : Runtime) (soup : node) (p : player),
       p ∈ parse_players soup → name p ≠ [] ∧ 0 ≤ kicktipp_P p).
Proof.
  intros Hclaim.
  destruct (Hclaim ascii_runtime (players_page "Bob" "-5")
              (Player (py "Bob") (-5))) as [_ Hneg].
  - vm_compute. apply list_elem_of_In. simpl. auto.
  - simpl in Hneg. lia.
Qed.

(** ** Season aggregator *)

Section season_aggregator.
Import compute_wurstliga.

Lemma totals_get_update (f : sums → sums) (n n' : pystr) (t : totals_dict) :
  totals_get n' (totals_update f n t)
  = if bool_decide (n = n')
    then Some (f (default zero_sums (totals_get n t)))
    else totals_get n' t.
Proof.
  induction t as [|[k v] t IH]; simpl.
  - by destruct (bool_decide (n = n')).
  - destruct (bool_decide (k = n)) eqn:Hkn; simpl.
    + apply bool_decide_eq_true in Hkn as ->.
      by destruct (bool_decide (n = n')).
    + rewrite IH. apply bool_decide_eq_false in Hkn.
      destruct (bool_decide (k = n')) eqn:Hkn'; [|done].
      apply bool_decide_eq_true in Hkn' as ->.
      by rewrite bool_decide_false by done.
Qed.

Lemma totals_update_keys (f : sums → sums) (n : pystr) (t : totals_dict) :
  (totals_update f n t).*1 = if bool_decide (n ∈ t.*1) then t.*1 else t.*1 ++ [n].
Proof.
  induction t as [|[k v] t IH].
  - by rewrite bool_decide_false by apply not_elem_of_nil.
  - cbn [totals_update]. destruct (bool_decide (k = n)) eqn:Hkn.
    + apply bool_decide_eq_true in Hkn as ->. rewrite !fmap_cons.
      by rewrite bool_decide_true by left.
    + apply bool_decide_eq_false in Hkn. rewrite !fmap_cons, IH. cbn [fst].
      destruct (bool_decide (n ∈ t.*1)) eqn:Hin.
      * apply bool_decide_eq_true in Hin.
        by rewrite bool_decide_true by by right.
      * apply bool_decide_eq_false in Hin.
        rewrite bool_decide_false; [done|].
        intros [?|?]%elem_of_cons; congruence.
Qed.

Lemma totals_update_NoDup (f : sums → sums) (n : pystr) (t : totals_dict) :
  NoDup t.*1 → NoDup (totals_update f n t).*1.
Proof.
  intros Hnd. rewrite totals_update_keys. case_bool_decide; [done|].
  apply NoDup_app. split_and!; [done| |apply NoDup_singleton].
  intros x Hx ->%list_elem_of_singleton. done.
Qed.

Lemma foldl_add_player_NoDup (ps : list doc_player) (t : totals_dict) :
  NoDup t.*1 → NoDup (foldl add_player t ps).*1.
Proof.
  revert t. induction ps as [|p ps IH]; intros t Hnd; simpl; [done|].
  by apply IH, totals_update_NoDup.
Qed.

Lemma totals_get_elem_of (n : pystr) (s : sums) (t : totals_dict) :
  NoDup t.*1 → (n, s) ∈ t ↔ totals_get n t = Some s.
Proof.
  induction t as [|[k v] t IH]; simpl; intros Hnd.
  - split; [by intros ?%elem_of_nil|done].
  - apply NoDup_cons in Hnd as [Hk Hnd]. rewrite elem_of_cons, IH by done.
    case_bool_decide as Hkn.
    + subst k. split; [|naive_solver].
      intros [[= ->]|Hget]; [done|]. exfalso. apply Hk.
      apply IH in Hget; [|done].
      apply list_elem_of_fmap. by exists (n, s).
    + naive_solver.
Qed.

(** Folding player records into the totals adds, under each name, the
    sums of the records of that name to what was there, a new name
    starting from zeros. *)
Lemma totals_get_foldl_add_player
    (ps : list doc_player) (t : totals_dict) (n : pystr) :
  totals_get n (foldl add_player t ps)
  = match records_of n ps with
    | [] => totals_get n t
    | rs =>
        let b := default zero_sums (totals_get n t) in
        Some (Sums (kicktipp_sum_P b + field_sum kicktipp_P rs)
                   (wurstliga_sum b + field_sum wurstliga_pts rs)
                   (tv_sum b + field_sum tv rs)
                   (null_sum b + field_sum null_wurst rs)
                   (sts_sum b + field_sum sts rs))
    end.
Proof.
  revert t. induction ps as [|p ps IH]; intros t; simpl; [done|].
  rewrite IH. unfold add_player at 1 2. rewrite totals_get_update.
  destruct (bool_decide (name p = n)) eqn:Hpn; simpl.
  - destruct (records_of n ps) as [|r rs] eqn:Hrs.
    + apply bool_decide_eq_true in Hpn. subst n.
      f_equal. unfold add_to_sums. simpl. f_equal; lia.
    + apply bool_decide_eq_true in Hpn. subst n.
      f_equal. unfold add_to_sums. simpl. f_equal; lia.
  - done.
Qed.

(** The loop over the documents folds the players of the counted
    documents and records their round numbers, in reading order. *)
Lemma foldl_fold_doc (docs : list doc) (t : totals_dict) (c : list Z) :
  foldl fold_doc (t, c) docs
  = (foldl add_player t (all_players (counted_docs docs)),
     c ++ (spieltag <$> counted_docs docs)).
Proof.
  revert t c. induction docs as [|d docs IH]; intros t c; simpl.
  - by rewrite app_nil_r.
  - unfold skipped.
    destruct (bool_decide (status d = Some (py "not_started"))); simpl;
      [apply IH|].
    destruct (all_zero d && _); simpl; [apply IH|].
    rewrite IH. unfold all_players. simpl.
    by rewrite foldl_app, <- app_assoc.
Qed.

Lemma fold_docs_spec (docs : list doc) :
  fold_docs docs
  = (foldl add_player [] (all_players (counted_docs docs)),
     spieltag <$> counted_docs docs).
Proof. apply foldl_fold_doc. Qed.

Lemma counted_docs_idemp (docs : list doc) :
  counted_docs (counted_docs docs) = counted_docs docs.
Proof.
  unfold counted_docs. induction docs as [|d docs IH]; simpl; [done|].
  destruct (negb (skipped d)) eqn:Hd; simpl; [|done]. by rewrite Hd, IH.
Qed.

Lemma skipped_spec (d : doc) :
  skipped d = true ↔
  status d = Some (py "not_started") ∨
  (doc_players d ≠ [] ∧
   Forall (λ p, default 0 (kicktipp_P p) = 0) (doc_players d)).
Proof.
  unfold skipped, all_zero.
  rewrite orb_true_iff, andb_true_iff, !bool_decide_eq_true.
  rewrite forallb_forall, Forall_forall.
  setoid_rewrite bool_decide_eq_true. setoid_rewrite list_elem_of_In.
  destruct (doc_players d); simpl; [|naive_solver lia].
  naive_solver lia.
Qed.


Lemma elem_of_counted_docs (docs : list doc) (d : doc) :
  d ∈ counted_docs docs ↔
  d ∈ docs ∧
  status d ≠ Some (py "not_started") ∧
  ¬ (doc_players d ≠ [] ∧
     Forall (λ p, default 0 (kicktipp_P p) = 0) (doc_players d)).
Proof.
  unfold counted_docs.
  rewrite list_elem_of_In, filter_In, <- list_elem_of_In.
  rewrite negb_true_iff, <- not_true_iff_false, skipped_spec.
  naive_solver.
Qed.

Lemma totals_of_counted (docs : list doc) (n : pystr) (s : sums) :
  totals_get n (fold_docs docs).1 = Some s ↔
  records_of n (all_players (counted_docs docs)) ≠ [] ∧
  s = sums_of (records_of n (all_players (counted_docs docs))).
Proof.
  rewrite fold_docs_spec. simpl. rewrite totals_get_foldl_add_player.
  destruct (records_of n _) as [|r rs]; simpl; [naive_solver|].
  unfold sums_of. simpl. naive_solver.
Qed.

Lemma fold_docs_NoDup (docs : list doc) : NoDup (fold_docs docs).1.*1.
Proof.
  rewrite fold_docs_spec. simpl. apply foldl_add_player_NoDup. constructor.
Qed.

(** The accumulation example of the specification: league points 10, 0
    and 6 in three counted rounds, with the player absent from a
    fourth. *)
Example accumulation_16 :
  let p pts := DocPlayer (py "A") (Some 5) (Some pts) None None None in
  let q := DocPlayer (py "B") (Some 7) (Some 8) None None None in
  let docs := [Doc 1 (Some (py "complete")) (Some [p 10; q]);
               Doc 2 (Some (py "complete")) (Some [q]);
               Doc 3 (Some (py "complete")) (Some [q; p 0]);
               Doc 4 (Some (py "in_progress")) (Some [p 6])] in
  wurstliga_sum <$> totals_get (py "A") (fold_docs docs).1 = Some 16.
Proof. vm_compute. reflexivity. Qed.

(** C3. Aggregator exclusion and accumulation.  The loop counts exactly
    the documents whose status is not not_started and that do not have
    at least one player with every raw score 0: a document with status
    not_started, or with one player or more and all raw scores 0, is not
    counted.  The counted-round list is the sorted list of the round
    numbers of the counted documents, the uncounted documents change
    nothing in the output, and the entries of the standings are, one per
    player name of the counted documents, the sums from zero of the raw
    scores, league points and the three flags of that name's records in
    the counted documents. *)
Theorem C3_aggregator_exclusion (docs : list doc) (now : pystr) :
  let out := main docs now in
  let counted := counted_docs docs in
  (∀ d, d ∈ counted ↔
        d ∈ docs ∧
        status d ≠ Some (py "not_started") ∧
        ¬ (doc_players d ≠ [] ∧
           Forall (λ p, default 0 (kicktipp_P p) = 0) (doc_players d))) ∧
  spieltage_counted out = sorted_ints (spieltag <$> counted) ∧
  main counted now = out ∧
  NoDup (standings_players out).*1 ∧
  (∀ n s, (n, s) ∈ standings_players out ↔
          records_of n (all_players counted) ≠ [] ∧
          s = sums_of (records_of n (all_players counted))).
Proof.
  intros out counted.
  assert (Hout : out = Standings SEASON (sorted_ints (spieltag <$> counted))
                         now (sorted_reverse key_lt (fold_docs docs).1)).
  { unfold out, main. by rewrite fold_docs_spec. }
  split_and!.
  - apply elem_of_counted_docs.
  - by rewrite Hout.
  - unfold out, main, counted. rewrite !fold_docs_spec.
    by rewrite counted_docs_idemp.
  - rewrite Hout. simpl. rewrite sorted_reverse_perm. apply fold_docs_NoDup.
  - intros n s. rewrite Hout. simpl. rewrite sorted_reverse_perm.
    rewrite totals_get_elem_of by apply fold_docs_NoDup.
    apply totals_of_counted.
Qed.

End season_aggregator.

(** ** The standings order *)

(** The sort is stable: elements that the comparison does not separate
    keep their input order. *)
Lemma insert_desc_stable {A} (lt : A → A → bool) (P : A → bool) x l :
  (∀ a b, P a = true → P b = true → lt a b = false) →
  List.filter P (insert_desc lt x l) = List.filter P (x :: l).
Proof.
  intros Hclass. induction l as [|y l IH]; [done|].
  cbn [insert_desc]. destruct (lt x y) eqn:Hxy; [|done].
  cbn [List.filter] in *. rewrite IH.
  destruct (P x) eqn:Hx, (P y) eqn:Hy; try done.
  by rewrite (Hclass x y Hx Hy) in Hxy.
Qed.

Lemma sorted_reverse_stable {A} (lt : A → A → bool) (P : A → bool) l :
  (∀ a b, P a = true → P b = true → lt a b = false) →
  List.filter P (sorted_reverse lt l) = List.filter P l.
Proof.
  intros Hclass. induction l as [|x l IH]; [done|].
  cbn [sorted_reverse foldr]. rewrite insert_desc_stable by done.
  cbn [List.filter]. fold (sorted_reverse lt l). by rewrite IH.
Qed.

Lemma StronglySorted_weaken {A} (R R' : relation A) (l : list A) :
  (∀ a b, R a b → R' a b) → StronglySorted R l → StronglySorted R' l.
Proof.
  intros HR. induction 1 as [|x l Hs IH Hx]; constructor; [done|].
  eapply Forall_impl; [exact Hx|]. intros y. apply HR.
Qed.

Section standings_order.
Import compute_wurstliga.

Lemma key_lt_false (a b : pystr * sums) : key_lt a b = false ↔ key_ge a b.
Proof.
  unfold key_lt, tuple_lt, sort_key, key_ge. simpl.
  rewrite orb_false_iff, andb_false_iff, !Z.ltb_ge, Z.eqb_neq. lia.
Qed.

Lemma key_lt_asym (a b : pystr * sums) : key_lt a b = true → key_lt b a = false.
Proof.
  rewrite key_lt_false. unfold key_lt, tuple_lt, sort_key, key_ge. simpl.
  rewrite orb_true_iff, andb_true_iff, !Z.ltb_lt, Z.eqb_eq. lia.
Qed.

Lemma key_lt_negtrans (a b c : pystr * sums) :
  key_lt a b = false → key_lt b c = false → key_lt a c = false.
Proof. rewrite !key_lt_false. unfold key_ge. lia. Qed.

(** The sorting example of the specification: B (16, 40) before
    A (16, 30) before C (10, 99). *)
Example sorting_B_A_C :
  let A := (py "A", Sums 30 16 0 0 0) in
  let B := (py "B", Sums 40 16 0 0 0) in
  let C := (py "C", Sums 99 10 0 0 0) in
  sorted_reverse key_lt [A; B; C] = [B; A; C].
Proof. reflexivity. Qed.

(** C4. The players list of the season standings is the accumulated
    totals sorted in descending order of total league points, ties
    ordered by descending total raw score.  No further key is used:
    entries equal in both totals stay in the order in which the totals
    hold them, the order of first appearance of the names. *)
Theorem C4_standings_sorted (docs : list doc) (now : pystr) :
  let out := main docs now in
  let totals := (fold_docs docs).1 in
  standings_players out ≡ₚ totals ∧
  StronglySorted key_ge (standings_players out) ∧
  (∀ (i j : nat) a b,
     (i < j)%nat →
     standings_players out !! i = Some a →
     standings_players out !! j = Some b →
     wurstliga_sum b.2 < wurstliga_sum a.2 ∨
     (wurstliga_sum b.2 = wurstliga_sum a.2 ∧
      kicktipp_sum_P b.2 ≤ kicktipp_sum_P a.2)) ∧
  (∀ k : Z * Z,
     List.filter (λ kv, bool_decide (sort_key kv = k)) (standings_players out)
     = List.filter (λ kv, bool_decide (sort_key kv = k)) totals).
Proof.
  intros out totals.
  assert (Hout : standings_players out = sorted_reverse key_lt totals).
  { unfold out, main, totals. by destruct (fold_docs docs). }
  assert (Hsorted : StronglySorted key_ge (standings_players out)).
  { rewrite Hout.
    eapply StronglySorted_weaken;
      [|apply (sorted_reverse_sorted key_lt key_lt_asym key_lt_negtrans)].
    intros a b. apply key_lt_false. }
  split_and!.
  - rewrite Hout. apply sorted_reverse_perm.
  - done.
  - intros i j a b Hij Hi Hj.
    apply (StronglySorted_lookup_lt key_ge _ i j a b Hsorted Hij Hi Hj).
  - intros k. rewrite Hout. apply sorted_reverse_stable.
    intros a b Ha%bool_decide_eq_true Hb%bool_decide_eq_true.
    unfold key_lt. rewrite Ha, Hb. unfold tuple_lt.
    rewrite orb_false_iff, andb_false_iff, !Z.ltb_ge. lia.
Qed.

End standings_order.

(** ** From the scraper to the aggregator *)

Lemma status_str_not_started (st : status) :
  status_str st = py "not_started" ↔ st = not_started.
Proof. destruct st; split; intros Heq; (done || by vm_compute in Heq). Qed.

(** On a round document written by the scraper the aggregator skips the
    round exactly when its status is not_started or it has players and
    all their raw scores are 0. *)
Lemma skipped_doc_of (rd : round_document) :
  compute_wurstliga.skipped (doc_of rd) = true ↔
  rd_status rd = not_started ∨
  (rd_players rd ≠ [] ∧
   Forall (λ s, kicktipp_P (raw s) = 0) (rd_players rd)).
Proof.
  rewrite skipped_spec. unfold doc_of, compute_wurstliga.doc_players. simpl.
  rewrite Forall_fmap.
  assert (Hnil : doc_player_of <$> rd_players rd ≠ [] ↔ rd_players rd ≠ []).
  { by destruct (rd_players rd). }
  rewrite Hnil. split.
  - intros [[= Hst]|Hp]; [left; by apply status_str_not_started|by right].
  - intros [Hst|Hp]; [left; by rewrite Hst|by right].
Qed.

(** Two rounds through the whole pipeline: the first has results and
    scores, the second has not started. *)
Example season_of_two_rounds :
  let page1 :=
    Tag "[document]"
      [Tag "table"
         [Tag "tr" [th "Termin"; th "Heim"; th "Gast"; th "Ergebnis"];
          Tag "tr" [td "offen"; td "FCB"; td "BVB"; td "2:0"]];
       Tag "table"
         [Tag "tr" [th "Pos"; th "Name"; th "P"];
          Tag "tr" [td "1"; td "Al"; td "7"];
          Tag "tr" [td "2"; td "Bo"; td "4"]]] in
  let page2 := players_page "Al" "0" in
  let docs := [doc_of (parse_spieltag (H:=ascii_runtime) page1 1);
               doc_of (parse_spieltag (H:=ascii_runtime) page2 2)] in
  let out := compute_wurstliga.main docs [] in
  compute_wurstliga.spieltage_counted out = [1] ∧
  compute_wurstliga.standings_players out
  = [(py "Al", compute_wurstliga.Sums 7 10 0 0 1);
     (py "Bo", compute_wurstliga.Sums 4 8 0 0 0)].
Proof. vm_compute. split; reflexivity. Qed.

(** * Further properties of the scoring engine *)

(** In a strictly descending list the elements greater than the one at
    position [i] are the [i] elements before it. *)
Lemma descending_greater_take (l : list Z) (i : nat) (x : Z) :
  StronglySorted (λ a b, b < a) l → l !! i = Some x →
  ∀ t, t ∈ take i l ↔ t ∈ l ∧ x < t.
Proof.
  intros Hs Hi t. split.
  - intros Ht. apply list_elem_of_lookup in Ht as [k Hk].
    pose proof (lookup_lt_Some _ _ _ Hk) as Hlen.
    rewrite length_take in Hlen.
    rewrite lookup_take_lt in Hk by lia.
    split; [by eapply list_elem_of_lookup_2|].
    apply (StronglySorted_lookup_lt _ l k i t x Hs); [lia|done..].
  - intros [Ht Hlt]. apply list_elem_of_lookup in Ht as [k Hk].
    destruct (decide (k < i)%nat) as [Hki|Hki].
    + apply list_elem_of_lookup. exists k. by rewrite lookup_take_lt.
    + destruct (decide (k = i)) as [->|Hne]; [simplify_eq; lia|].
      pose proof (StronglySorted_lookup_lt _ l i k x t Hs ltac:(lia) Hi Hk).
      simpl in *. lia.
Qed.

(** The rank the map gives a score of the round: one more than the
    number of distinct scores above it. *)
Lemma rank_counts_greater (ps : list player) (p : player) :
  p ∈ ps →
  score_to_dense_rank (unique_scores (bucket_of ps)) !! kicktipp_P p
  = Some (Z.of_nat (size (filter (λ t, kicktipp_P p < t) (distinct_scores ps)))
          + 1).
Proof.
  intros Hp. destruct (rank_of_player ps p Hp) as (i & Hi & ->).
  do 2 f_equal.
  pose proof (unique_scores_descending (bucket_of ps)) as Hdesc.
  pose proof (unique_scores_NoDup (bucket_of ps)) as Hnd.
  assert (Hset : filter (λ t, kicktipp_P p < t) (distinct_scores ps)
                 = list_to_set (take i (unique_scores (bucket_of ps)))).
  { apply set_eq. intros t.
    rewrite elem_of_filter, elem_of_list_to_set.
    rewrite (descending_greater_take _ _ _ Hdesc Hi).
    rewrite elem_of_unique_scores, elem_of_distinct_scores. naive_solver. }
  rewrite Hset, size_list_to_set.
  - rewrite length_take. apply lookup_lt_Some in Hi. lia.
  - rewrite <- (take_drop i) in Hnd. by apply NoDup_app in Hnd as [? _].
Qed.

(** X1. The dense rank of a player is one more than the number of
    distinct raw scores of the round that are strictly greater than the
    player's own. *)
Theorem X1_rank_counts_greater_scores
    (ladder : list Z) (players : list player) (s : scored) :
  s ∈ apply_wurstliga_scoring ladder players →
  dense_rank s
  = Z.of_nat (size (filter (λ t, kicktipp_P (raw s) < t)
                      (distinct_scores players))) + 1.
Proof.
  intros (p & Hp & ->)%elem_of_apply_wurstliga_scoring.
  simpl. by rewrite (rank_counts_greater players p Hp).
Qed.

Lemma X1_rank_counts_greater_scores_witness :
  let ps := [Player (py "A") 3; Player (py "B") 7; Player (py "C") 5] in
  let s := Scored (Player (py "A") 3) 3 6 0 0 0 in
  s ∈ apply_wurstliga_scoring WURSTLIGA_LADDER ps ∧
  dense_rank s
  = Z.of_nat (size (filter (λ t, 3 < t) (distinct_scores ps))) + 1.
Proof.
  intros ps s.
  assert (Hs : s ∈ apply_wurstliga_scoring WURSTLIGA_LADDER ps).
  { vm_compute. apply list_elem_of_In. simpl. auto. }
  split; [exact Hs|].
  apply (X1_rank_counts_greater_scores WURSTLIGA_LADDER ps s Hs).
Defined.

(** X2. The top-scorer flag marks exactly the players whose raw score
    is the maximum of the round, and a round with at least one player
    has a top scorer. *)
Theorem X2_top_scorers_have_max_score
    (ladder : list Z) (players : list player) :
  let out := apply_wurstliga_scoring ladder players in
  (∀ s, s ∈ out →
     sts s = 1 ↔ ∀ t, t ∈ out → kicktipp_P (raw t) ≤ kicktipp_P (raw s)) ∧
  (players ≠ [] → ∃ s, s ∈ out ∧ sts s = 1).
Proof.
  intros out.
  pose proof (unique_scores_descending (bucket_of players)) as Hdesc.
  pose proof (unique_scores_NoDup (bucket_of players)) as Hnd.
  assert (Hsts : ∀ s, s ∈ out → sts s = 1 ↔ dense_rank s = 1).
  { intros s (p & _ & ->)%elem_of_apply_wurstliga_scoring. simpl.
    case_bool_decide; split; (done || lia). }
  assert (Hfirst : ∀ x, unique_scores (bucket_of players) !! 0%nat = Some x →
                        ∃ s, s ∈ out ∧ kicktipp_P (raw s) = x ∧
                             dense_rank s = 1).
  { intros x Hx.
    assert (Hin : x ∈ unique_scores (bucket_of players))
      by by eapply list_elem_of_lookup_2.
    apply elem_of_unique_scores in Hin as (q & Hq & <-).
    exists (score_player ladder
              (score_to_dense_rank (unique_scores (bucket_of players))) q).
    split; [apply elem_of_apply_wurstliga_scoring; eauto|].
    split; [done|]. simpl.
    by rewrite (score_to_dense_rank_lookup _ _ _ Hnd Hx). }
  split.
  - intros s Hs. rewrite (Hsts s Hs).
    destruct (dense_rank_position _ _ _ Hs) as (i & Hi & Hrank).
    split.
    + intros H1 t Ht. assert (i = 0%nat) as -> by lia.
      destruct (dense_rank_position _ _ _ Ht) as (j & Hj & _).
      destruct j as [|j]; [rewrite Hi in Hj; injection Hj as Heq; lia|].
      pose proof (StronglySorted_lookup_lt _ _ 0%nat (S j) _ _ Hdesc
                    ltac:(lia) Hi Hj). simpl in *. lia.
    + intros Hmax. destruct i as [|i]; [lia|]. exfalso.
      destruct (lookup_lt_is_Some_2 (unique_scores (bucket_of players)) 0)
        as [x Hx]; [apply lookup_lt_Some in Hi; lia|].
      destruct (Hfirst x Hx) as (t & Ht & Hscore & _).
      specialize (Hmax t Ht).
      pose proof (StronglySorted_lookup_lt _ _ 0%nat (S i) _ _ Hdesc
                    ltac:(lia) Hx Hi). simpl in *. lia.
  - intros Hne. destruct players as [|p ps] eqn:Hps; [done|].
    assert (Hin : kicktipp_P p ∈ unique_scores (bucket_of (p :: ps))).
    { apply elem_of_unique_scores. exists p. split; [left|done]. }
    apply list_elem_of_lookup in Hin as [i Hi].
    destruct (lookup_lt_is_Some_2 (unique_scores (bucket_of (p :: ps))) 0)
      as [x Hx]; [apply lookup_lt_Some in Hi; lia|].
    destruct (Hfirst x Hx) as (t & Ht & _ & Hrank).
    exists t. split; [done|]. by apply Hsts.
Qed.

(** A higher raw score has a smaller rank, an equal one the same. *)
Lemma dense_rank_antitone ladder (players : list player) (s t : scored) :
  s ∈ apply_wurstliga_scoring ladder players →
  t ∈ apply_wurstliga_scoring ladder players →
  kicktipp_P (raw t) ≤ kicktipp_P (raw s) →
  1 ≤ dense_rank s ≤ dense_rank t.
Proof.
  intros Hs Ht Hle.
  destruct (dense_rank_position _ _ _ Hs) as (i & Hi & ->).
  destruct (dense_rank_position _ _ _ Ht) as (j & Hj & ->).
  pose proof (unique_scores_descending (bucket_of players)) as Hdesc.
  destruct (decide (j < i)%nat) as [Hji|]; [|lia].
  pose proof (StronglySorted_lookup_lt _ _ j i _ _ Hdesc Hji Hj Hi).
  simpl in *. lia.
Qed.

Lemma ladder_points_mono (ladder : list Z) (i j : Z) :
  StronglySorted (λ a b, b ≤ a) ladder →
  Forall (λ a, 0 ≤ a) ladder →
  0 ≤ i ≤ j →
  ladder_points ladder j ≤ ladder_points ladder i.
Proof.
  intros Hs Hpos Hij. unfold ladder_points.
  destruct (decide (j < Z.of_nat (length ladder))) as [Hj|Hj].
  - rewrite !bool_decide_true by lia.
    destruct (lookup_lt_is_Some_2 ladder (Z.to_nat i)) as [a Ha]; [lia|].
    destruct (lookup_lt_is_Some_2 ladder (Z.to_nat j)) as [b Hb]; [lia|].
    rewrite Ha, Hb. simpl.
    destruct (decide (i = j)) as [->|Hne]; [by simplify_eq|].
    apply (StronglySorted_lookup_lt _ ladder (Z.to_nat i) (Z.to_nat j) a b Hs);
      [lia|done..].
  - rewrite (bool_decide_false (0 ≤ j < _)) by lia.
    case_bool_decide; [|done].
    destruct (lookup_lt_is_Some_2 ladder (Z.to_nat i)) as [a Ha]; [lia|].
    rewrite Ha. simpl. rewrite Forall_forall in Hpos. apply Hpos.
    by eapply list_elem_of_lookup_2.
Qed.

(** X3. On a ladder that never increases and holds no negative value, as
    the configured one, a player with a raw score at least as high as
    another's gets at least as many league points. *)
Theorem X3_points_monotone_in_score
    (ladder : list Z) (players : list player) (s t : scored) :
  StronglySorted (λ a b, b ≤ a) ladder →
  Forall (λ a, 0 ≤ a) ladder →
  s ∈ apply_wurstliga_scoring ladder players →
  t ∈ apply_wurstliga_scoring ladder players →
  kicktipp_P (raw t) ≤ kicktipp_P (raw s) →
  wurstliga_pts t ≤ wurstliga_pts s.
Proof.
  intros Hsorted Hpos Hs Ht Hle.
  pose proof (dense_rank_antitone ladder players s t Hs Ht Hle) as Hrank.
  apply elem_of_apply_wurstliga_scoring in Hs as (p & _ & ->).
  apply elem_of_apply_wurstliga_scoring in Ht as (q & _ & ->).
  simpl in *. apply ladder_points_mono; [done..|lia].
Qed.

Lemma X3_points_monotone_in_score_witness :
  let ps := [Player (py "A") 3; Player (py "B") 7] in
  let s := Scored (Player (py "B") 7) 1 10 1 0 0 in
  let t := Scored (Player (py "A") 3) 2 8 0 0 0 in
  StronglySorted (λ a b, b ≤ a) WURSTLIGA_LADDER ∧
  Forall (λ a, 0 ≤ a) WURSTLIGA_LADDER ∧
  s ∈ apply_wurstliga_scoring WURSTLIGA_LADDER ps ∧
  t ∈ apply_wurstliga_scoring WURSTLIGA_LADDER ps ∧
  wurstliga_pts t ≤ wurstliga_pts s.
Proof.
  intros ps s t.
  assert (Hsorted : StronglySorted (λ a b, b ≤ a) WURSTLIGA_LADDER).
  { unfold WURSTLIGA_LADDER. repeat constructor; lia. }
  assert (Hpos : Forall (λ a, 0 ≤ a) WURSTLIGA_LADDER).
  { unfold WURSTLIGA_LADDER. repeat constructor; lia. }
  assert (Hs : s ∈ apply_wurstliga_scoring WURSTLIGA_LADDER ps).
  { vm_compute. apply list_elem_of_In. simpl. auto. }
  assert (Ht : t ∈ apply_wurstliga_scoring WURSTLIGA_LADDER ps).
  { vm_compute. apply list_elem_of_In. simpl. auto. }
  split_and!; [done..|].
  apply (X3_points_monotone_in_score WURSTLIGA_LADDER ps s t Hsorted Hpos Hs Ht).
  simpl. lia.
Defined.

Lemma ladder_points_lookup (ladder : list Z) (i : nat) :
  ladder_points ladder (Z.of_nat i) = default 0 (ladder !! i).
Proof.
  unfold ladder_points. rewrite Nat2Z.id. case_bool_decide as Hi; [done|].
  rewrite lookup_ge_None_2; [done|lia].
Qed.

(** X4. With the configured ladder a player gets no league points
    exactly when the dense rank is beyond 8, the length of the ladder;
    the first eight ranks get between 1 and 10 points. *)
Theorem X4_configured_ladder_zero_points (players : list player) (s : scored) :
  s ∈ apply_wurstliga_scoring WURSTLIGA_LADDER players →
  (null_wurst s = 1 ↔ 8 < dense_rank s) ∧
  (wurstliga_pts s = 0 ↔ 8 < dense_rank s) ∧
  (dense_rank s ≤ 8 → 1 ≤ wurstliga_pts s ≤ 10).
Proof.
  intros Hs.
  destruct (dense_rank_position _ _ _ Hs) as (i & _ & Hrank).
  apply elem_of_apply_wurstliga_scoring in Hs as (p & _ & ->).
  simpl in *. rewrite Hrank.
  replace (Z.of_nat i + 1 - 1) with (Z.of_nat i) by lia.
  rewrite ladder_points_lookup. unfold WURSTLIGA_LADDER.
  do 8 (destruct i as [|i]; [simpl; try case_bool_decide; lia|]).
  simpl. try case_bool_decide; lia.
Qed.

Lemma X4_configured_ladder_zero_points_witness :
  let ps := [Player (py "A") 3; Player (py "B") 7] in
  let s := Scored (Player (py "A") 3) 2 8 0 0 0 in
  s ∈ apply_wurstliga_scoring WURSTLIGA_LADDER ps ∧
  (wurstliga_pts s = 0 ↔ 8 < dense_rank s).
Proof.
  intros ps s.
  assert (Hs : s ∈ apply_wurstliga_scoring WURSTLIGA_LADDER ps).
  { vm_compute. apply list_elem_of_In. simpl. auto. }
  split; [exact Hs|].
  apply (X4_configured_ladder_zero_points ps s Hs).
Defined.

Lemma distinct_scores_snoc (ps : list player) (q : player) :
  distinct_scores (ps ++ [q]) = distinct_scores ps ∪ {[kicktipp_P q]}.
Proof.
  unfold distinct_scores. rewrite fmap_app. simpl.
  by rewrite list_to_set_snoc_L.
Qed.

Lemma size_filter_above_add (D : gset Z) (x y : Z) :
  size (filter (λ t, x < t) (D ∪ {[y]}))
  = Nat.add (size (filter (λ t, x < t) D))
            (if bool_decide ((y ∉ D) ∧ x < y) then 1%nat else 0%nat).
Proof.
  destruct (decide ((y ∉ D) ∧ x < y)) as [[Hy Hxy]|Hno].
  - rewrite bool_decide_true by done.
    assert (Hunion : filter (λ t, x < t) (D ∪ {[y]})
                     = filter (λ t, x < t) D ∪ {[y]}).
    { apply set_eq. intros t.
      rewrite elem_of_union, !elem_of_filter, elem_of_union, elem_of_singleton.
      naive_solver. }
    rewrite Hunion, size_union, size_singleton; [done|].
    intros t [_ Ht]%elem_of_filter Ht'%elem_of_singleton. by subst.
  - rewrite bool_decide_false by done.
    assert (Hsame : filter (λ t, x < t) (D ∪ {[y]}) = filter (λ t, x < t) D).
    { apply set_eq. intros t.
      rewrite !elem_of_filter, elem_of_union, elem_of_singleton.
      destruct (decide (y ∈ D)); naive_solver. }
    rewrite Hsame. lia.
Qed.

(** X5. Appending a player to the round leaves the records of the
    others in place and moves a dense rank only when the newcomer
    brings a raw score that was not there: then exactly the players
    with a lower raw score drop by one rank. *)
Theorem X5_newcomer_shifts_lower_ranks
    (ladder : list Z) (players : list player) (q : player)
    (i : nat) (s s' : scored) :
  apply_wurstliga_scoring ladder players !! i = Some s →
  apply_wurstliga_scoring ladder (players ++ [q]) !! i = Some s' →
  raw s' = raw s ∧
  dense_rank s'
  = dense_rank s
    + (if bool_decide ((kicktipp_P q ∉ distinct_scores players)
                       ∧ kicktipp_P (raw s) < kicktipp_P q)
       then 1 else 0).
Proof.
  unfold apply_wurstliga_scoring. rewrite !list_lookup_fmap.
  intros Hs Hs'.
  destruct (players !! i) as [p|] eqn:Hp; [|done].
  rewrite lookup_app_l, Hp in Hs' by (by eapply lookup_lt_Some).
  simpl in Hs, Hs'. injection Hs as <-. injection Hs' as <-.
  split; [done|]. simpl.
  assert (Hin : p ∈ players) by by eapply list_elem_of_lookup_2.
  rewrite (rank_counts_greater players p Hin).
  rewrite (rank_counts_greater (players ++ [q]) p) by set_solver.
  rewrite distinct_scores_snoc, size_filter_above_add. simpl.
  case_bool_decide; lia.
Qed.

Lemma X5_newcomer_shifts_lower_ranks_witness :
  let ps := [Player (py "A") 3; Player (py "B") 7] in
  let q := Player (py "C") 5 in
  let s := Scored (Player (py "A") 3) 2 8 0 0 0 in
  let s' := Scored (Player (py "A") 3) 3 6 0 0 0 in
  apply_wurstliga_scoring WURSTLIGA_LADDER ps !! 0%nat = Some s ∧
  apply_wurstliga_scoring WURSTLIGA_LADDER (ps ++ [q]) !! 0%nat = Some s' ∧
  raw s' = raw s.
Proof.
  intros ps q s s'.
  assert (Hs : apply_wurstliga_scoring WURSTLIGA_LADDER ps !! 0%nat = Some s)
    by (vm_compute; reflexivity).
  assert (Hs' : apply_wurstliga_scoring WURSTLIGA_LADDER (ps ++ [q]) !! 0%nat
                = Some s') by (vm_compute; reflexivity).
  split_and!; [done..|].
  apply (X5_newcomer_shifts_lower_ranks WURSTLIGA_LADDER ps q 0 s s' Hs Hs').
Defined.

(** * The HTTP helper *)

Lemma range_retry : range (RETRY + 1) = [0; 1; 2].
Proof. reflexivity. Qed.

(** X6. [get] returns the first reply with status 200 among its first
    three requests, provided the earlier requests were answered, with
    another status: it has then sent one request more than it had
    failures and slept 1, 2, ... seconds after the failures. *)
Theorem X6_get_returns_first_200
    (server : nat → reply) (k : nat) (text : pystr) :
  (k ≤ 2)%nat →
  server k = Response 200 text →
  (∀ j, (j < k)%nat → ∃ c t, server j = Response c t ∧ c ≠ 200) →
  get server
  = GetRun (Returns 200 text) ((λ j, Z.of_nat j + 1) <$> seq 0 k) (S k).
Proof.
  intros Hk H200 Hfail. unfold get. rewrite range_retry.
  destruct k as [|[|[|k]]]; [| | |lia]; simpl.
  - by rewrite H200.
  - destruct (Hfail 0%nat) as (c0 & t0 & -> & Hc0); [lia|].
    rewrite bool_decide_false by done. by rewrite H200.
  - destruct (Hfail 0%nat) as (c0 & t0 & -> & Hc0); [lia|].
    destruct (Hfail 1%nat) as (c1 & t1 & H1 & Hc1); [lia|].
    rewrite bool_decide_false by done. rewrite H1.
    rewrite bool_decide_false by done. by rewrite H200.
Qed.

Lemma X6_get_returns_first_200_witness :
  let server := λ n : nat,
    if bool_decide (n = 1%nat) then Response 200 (py "ok")
    else Response 503 [] in
  get server = GetRun (Returns 200 (py "ok")) [1] 2.
Proof.
  intros server.
  apply (X6_get_returns_first_200 server 1 (py "ok")).
  - lia.
  - reflexivity.
  - intros j Hj. assert (j = 0%nat) as -> by lia.
    exists 503, []. split; [reflexivity|lia].
Defined.

(** X7. When the three requests are answered and none with status 200,
    [get] has slept 1, 2 and 3 seconds, and then raises exactly when
    the last status is between 400 and 599; a last reply with any other
    status, such as 204 or 304, is returned to the caller although it
    is not a 200. *)
Theorem X7_get_after_three_failures
    (server : nat → reply) (c0 c1 c2 : Z) (t0 t1 t2 : pystr) :
  server 0%nat = Response c0 t0 →
  server 1%nat = Response c1 t1 →
  server 2%nat = Response c2 t2 →
  c0 ≠ 200 → c1 ≠ 200 → c2 ≠ 200 →
  slept (get server) = [1; 2; 3] ∧
  requests_sent (get server) = 3%nat ∧
  (400 ≤ c2 < 600 → outcome (get server) = RaisesHTTPError c2) ∧
  (¬ (400 ≤ c2 < 600) → outcome (get server) = Returns c2 t2).
Proof.
  intros H0 H1 H2 Hc0 Hc1 Hc2. unfold get. rewrite range_retry. simpl.
  rewrite H0, bool_decide_false by done.
  rewrite H1, bool_decide_false by done.
  rewrite H2, bool_decide_false by done. simpl.
  split_and!; [done..| |]; intros Hc; case_bool_decide; done.
Qed.

Lemma X7_get_after_three_failures_witness :
  let server := λ n : nat, Response 204 [] in
  outcome (get server) = Returns 204 [].
Proof.
  intros server.
  apply (X7_get_after_three_failures server 204 204 204 [] [] []);
    (reflexivity || lia).
Defined.

(** X8. Whatever the server answers, [get] sends between one and three
    requests and sleeps at most 1 + 2 + 3 seconds, one nap per failed
    request; a response it returns has either status 200 or is the
    third reply with a status outside 400 to 599; and its response
    variable is never unbound. *)
Theorem X8_get_bounds (server : nat → reply) :
  let run := get server in
  (1 ≤ requests_sent run ≤ 3)%nat ∧
  slept run `prefix_of` [1; 2; 3] ∧
  (length (slept run) ≤ requests_sent run)%nat ∧
  outcome run ≠ RaisesUnboundLocal ∧
  (∀ c t, outcome run = Returns c t →
     c = 200 ∨ (requests_sent run = 3%nat ∧ server 2%nat = Response c t ∧
                ¬ (400 ≤ c < 600))).
Proof.
  unfold get. rewrite range_retry. simpl.
  destruct (server 0%nat) as [c0 t0|] eqn:H0; simpl.
  2: { split_and!; [lia|lia|by exists [1; 2; 3]|simpl; lia|done|done]. }
  case_bool_decide as Hc0; simpl.
  { split_and!; [lia|lia|by exists [1; 2; 3]|simpl; lia|done|].
    intros c t [= <- <-]. by left. }
  destruct (server 1%nat) as [c1 t1|] eqn:H1; simpl.
  2: { split_and!; [lia|lia|by exists [2; 3]|simpl; lia|done|done]. }
  case_bool_decide as Hc1; simpl.
  { split_and!; [lia|lia|by exists [2; 3]|simpl; lia|done|].
    intros c t [= <- <-]. by left. }
  destruct (server 2%nat) as [c2 t2|] eqn:H2; simpl.
  2: { split_and!; [lia|lia|by exists [3]|simpl; lia|done|done]. }
  case_bool_decide as Hc2; simpl.
  { split_and!; [lia|lia|by exists [3]|simpl; lia|done|].
    intros c t [= <- <-]. by left. }
  case_bool_decide as Herr; simpl.
  - split_and!; [lia|lia|by exists []|simpl; lia|done|done].
  - split_and!; [lia|lia|by exists []|simpl; lia|done|].
    intros c t [= <- <-]. right. done.
Qed.

(** * Round discovery *)

Lemma sorted_ascending_perm (l : list Z) : sorted_ascending l ≡ₚ l.
Proof. apply sorted_reverse_perm. Qed.

Lemma sorted_ascending_sorted (l : list Z) :
  StronglySorted Z.le (sorted_ascending l).
Proof.
  eapply StronglySorted_weaken; [|apply sorted_reverse_sorted].
  - intros a b. unfold not_below. rewrite Z.ltb_ge. done.
  - intros a b. rewrite Z.ltb_lt, Z.ltb_ge. lia.
  - intros a b c. rewrite !Z.ltb_ge. lia.
Qed.

Lemma sorted_ascending_strict (l : list Z) :
  NoDup l → StronglySorted Z.lt (sorted_ascending l).
Proof.
  intros Hnd. rewrite <- sorted_ascending_perm in Hnd.
  pose proof (sorted_ascending_sorted l) as Hs.
  induction Hs as [|x k Hs IH Hx]; [constructor|].
  apply NoDup_cons in Hnd as [Hx' Hnd].
  constructor; [by apply IH|].
  apply Forall_forall. intros y Hy.
  rewrite Forall_forall in Hx. specialize (Hx y Hy).
  assert (x ≠ y) by (intros ->; done). lia.
Qed.

Section discovery.
Context `{Runtime} `{UrlLib}.

Lemma elem_of_add_link_index (idxs : gset Z) (href : pystr) (idx : Z) :
  idx ∈ add_link_index idxs href ↔ idx ∈ idxs ∨ link_gives href idx.
Proof.
  unfold add_link_index, link_gives.
  destruct (query_spieltagIndex href) as [v|] eqn:Hq.
  2: { split; [by left|]. by intros [?|(? & [=] & _)]. }
  destruct (int (strip v)) as [k|] eqn:Hint.
  2: { split; [by left|]. intros [?|(w & [= <-] & Hw & _)]; congruence. }
  case_bool_decide as Hk.
  - rewrite elem_of_union, elem_of_singleton. split.
    + intros [->|?]; [right; by exists v|by left].
    + intros [?|(w & [= <-] & Hw & _)]; [by right|left; congruence].
  - split; [by left|].
    intros [?|(w & [= <-] & Hw & ?)]; [done|].
    assert (k = idx) by congruence. lia.
Qed.

Lemma elem_of_foldl_add_link_index
    (hrefs : list pystr) (idxs : gset Z) (idx : Z) :
  idx ∈ foldl add_link_index idxs hrefs ↔
  idx ∈ idxs ∨ ∃ href, href ∈ hrefs ∧ link_gives href idx.
Proof.
  revert idxs. induction hrefs as [|h hrefs IH]; intros idxs; simpl.
  - split; [by left|]. intros [?|(? & []%elem_of_nil & _)]. done.
  - rewrite IH, elem_of_add_link_index. split.
    + intros [[?|?]|(href & ? & ?)]; [by left| |].
      * right. exists h. split; [left|done].
      * right. exists href. split; [by right|done].
    + intros [?|(href & [->|?]%elem_of_cons & ?)]; [by left; left|by left; right|].
      right. by exists href.
Qed.

End discovery.

(** X9. [discover_spieltage] never returns an empty list: its result is
    strictly increasing and holds positive indices only.  When some
    link carries a positive [spieltagIndex] the result holds exactly
    the indices the links give, each once; otherwise it is 1 to 34. *)
Theorem X9_discover_spieltage_result `{Runtime} `{UrlLib}
    (hrefs : list pystr) :
  let out := discover_spieltage hrefs in
  let found idx := ∃ href, href ∈ hrefs ∧ link_gives href idx in
  out ≠ [] ∧
  StronglySorted Z.lt out ∧
  Forall (λ k, 0 < k) out ∧
  ((∃ idx, found idx) → ∀ idx, idx ∈ out ↔ found idx) ∧
  ((¬ ∃ idx, found idx) → out = Z.of_nat <$> seq 1 34).
Proof.
  intros out found. unfold out, discover_spieltage.
  set (idxs := foldl add_link_index ∅ hrefs).
  assert (Hidxs : ∀ idx, idx ∈ idxs ↔ found idx).
  { intros idx. unfold idxs. rewrite elem_of_foldl_add_link_index.
    split; [by intros [[]%elem_of_empty|?]|by right]. }
  case_bool_decide as Hempty.
  - assert (Hnone : ¬ ∃ idx, found idx).
    { intros [idx Hidx]. apply Hidxs in Hidx. rewrite Hempty in Hidx.
      by apply elem_of_empty in Hidx. }
    split_and!; [done| | |done|done].
    + apply Sorted_StronglySorted; [intros ???; lia|].
      vm_compute. repeat constructor.
    + vm_compute. repeat constructor.
  - assert (Hin : ∀ idx, idx ∈ sorted_ascending (elements idxs) ↔ found idx).
    { intros idx. by rewrite sorted_ascending_perm, elem_of_elements. }
    split_and!.
    + intros Hnil. apply Hempty. apply set_eq. intros idx.
      rewrite Hidxs, <- Hin, Hnil. set_solver.
    + apply sorted_ascending_strict, NoDup_elements.
    + apply Forall_forall. intros k Hk%Hin.
      destruct Hk as (href & _ & v & _ & _ & Hpos). done.
    + intros _. exact Hin.
    + intros Hnone. exfalso. apply Hempty. apply set_eq. intros idx.
      rewrite Hidxs. split; [|by intros []%elem_of_empty].
      intros Hf. exfalso. apply Hnone. by exists idx.
Qed.

(** Three links, one of them twice and one without a number. *)
Example discover_spieltage_links :
  discover_spieltage (H:=ascii_runtime) (H0:=plain_urllib)
    [py "?spieltagIndex=3"; py "?spieltagIndex=1";
     py "?spieltagIndex=x"; py "?spieltagIndex=3"; py "?spieltagIndex=0"]
  = [1; 3].
Proof. vm_compute. reflexivity. Qed.

(** * Further properties of the match extractor *)

Lemma parse_match_row_row `{Runtime} (i : Z) (tr : node) (m : match_record) :
  parse_match_row (i, tr) = Some m → kicktipp_row m = i.
Proof.
  simpl. destruct (row_cells tr) as [|? [|? [|? [|? ?]]]]; try done.
  by intros [= <-].
Qed.

Lemma omap_cons_match {A B} (f : A → option B) (x : A) (l : list A) :
  omap f (x :: l)
  = match f x with Some y => y :: omap f l | None => omap f l end.
Proof. reflexivity. Qed.

(** The matches of the rows numbered from [k + 1] on: at most one per
    row, with increasing row numbers in that range. *)
Lemma parse_match_rows_numbers `{Runtime} (rows : list node) (k : nat) :
  let ms := omap parse_match_row
              (imap (λ i x, (Z.of_nat (k + i) + 1, x)) rows) in
  (length ms ≤ length rows)%nat ∧
  StronglySorted Z.lt (kicktipp_row <$> ms) ∧
  Forall (λ m, Z.of_nat k + 1 ≤ kicktipp_row m
               ≤ Z.of_nat k + Z.of_nat (length rows)) ms.
Proof.
  revert k. induction rows as [|tr rows IH]; intros k.
  - split_and!; [done|constructor|constructor].
  - assert (Hext : imap ((λ i x, (Z.of_nat (k + i) + 1, x)) ∘ S) rows
                   = imap (λ i x, (Z.of_nat (S k + i) + 1, x)) rows).
    { apply imap_ext. intros i x _. simpl. do 2 f_equal. lia. }
    rewrite imap_cons, Hext, omap_cons_match.
    destruct (IH (S k)) as (Hlen & Hsorted & Hrange).
    set (ms := omap parse_match_row
                 (imap (λ i x, (Z.of_nat (S k + i) + 1, x)) rows)) in *.
    cbv zeta. rewrite length_cons.
    destruct (parse_match_row (Z.of_nat (k + 0) + 1, tr)) as [m|] eqn:Hm.
    + apply parse_match_row_row in Hm. split_and!.
      * rewrite length_cons. lia.
      * rewrite fmap_cons. constructor; [done|]. apply Forall_fmap.
        eapply Forall_impl; [exact Hrange|]. intros m' Hm'.
        unfold compose. simpl in *. lia.
      * constructor; [lia|].
        eapply Forall_impl; [exact Hrange|]. intros m' Hm'. simpl in *. lia.
    + split_and!; [lia|done|].
      eapply Forall_impl; [exact Hrange|]. intros m' Hm'. simpl in *. lia.
Qed.

(** X10. The match extractor returns at most as many matches as the
    slot count it reports, which is never negative; the row numbers of
    the matches increase strictly and lie between 1 and the slot
    count. *)
Theorem X10_matches_within_slots `{Runtime} (soup : node) :
  let matches := (parse_matches soup).1 in
  let total_slots := (parse_matches soup).2 in
  0 ≤ total_slots ∧
  Z.of_nat (length matches) ≤ total_slots ∧
  StronglySorted Z.lt (kicktipp_row <$> matches) ∧
  Forall (λ m, 1 ≤ kicktipp_row m ≤ total_slots) matches.
Proof.
  unfold parse_matches.
  destruct (find_match_table soup) as [tbl|]; simpl.
  2: { split_and!; [lia|lia|constructor|constructor]. }
  destruct (parse_match_rows_numbers
              (find_all "tr" (default tbl (find "tbody" tbl))) 0)
    as (Hlen & Hsorted & Hrange).
  unfold enumerate1. simpl in *.
  split_and!; [lia|lia|done|].
  eapply Forall_impl; [exact Hrange|]. intros m Hm. simpl in Hm. lia.
Qed.

Lemma NUM_RE_nil `{Runtime} : NUM_RE [] = false.
Proof. reflexivity. Qed.

Lemma normalize_result_NUM_RE `{Runtime} (ergebnis : pystr) :
  NUM_RE (normalize_result ergebnis)
  = bool_decide (normalize_result ergebnis ≠ []).
Proof.
  unfold normalize_result.
  destruct (NUM_RE (strip ergebnis)) eqn:Hre.
  - rewrite Hre. symmetry. apply bool_decide_eq_true.
    intros Hnil. by rewrite Hnil, NUM_RE_nil in Hre.
  - rewrite NUM_RE_nil. symmetry. by apply bool_decide_eq_false; intros ?.
Qed.

Lemma parse_matches_result `{Runtime} (soup : node) (m : match_record) :
  m ∈ (parse_matches soup).1 → ∃ ergebnis, result m = normalize_result ergebnis.
Proof.
  intros (tbl & i & tr & termin & heim & gast & ergebnis & rest &
          _ & _ & _ & ->)%elem_of_parse_matches.
  by exists ergebnis.
Qed.

Lemma filter_length_ext {A} (f g : A → bool) (l : list A) :
  (∀ x, x ∈ l → f x = g x) →
  length (List.filter f l) = length (List.filter g l).
Proof.
  induction l as [|x l IH]; intros Hfg; simpl; [done|].
  rewrite <- (Hfg x) by left.
  destruct (f x); simpl; rewrite IH; try done;
    intros y Hy; apply Hfg; by right.
Qed.

(** X11. On the matches of the match extractor the status resolver
    counts as completed exactly the matches with a non-empty result: a
    stored result matches the score pattern if and only if it is not
    empty. *)
Theorem X11_completed_are_nonempty_results `{Runtime} (soup : node) :
  let matches := (parse_matches soup).1 in
  (∀ m, m ∈ matches → NUM_RE (result m) = true ↔ result m ≠ []) ∧
  results_done matches
  = Z.of_nat (length (List.filter (λ m, bool_decide (result m ≠ []))
                        matches)).
Proof.
  intros matches.
  assert (Heq : ∀ m, m ∈ matches →
                  NUM_RE (result m) = bool_decide (result m ≠ [])).
  { intros m [e ->]%parse_matches_result. apply normalize_result_NUM_RE. }
  split.
  - intros m Hm. rewrite (Heq m Hm). apply bool_decide_eq_true.
  - unfold results_done. f_equal. by apply filter_length_ext.
Qed.

Lemma lstrip_id (s : pystr) :
  (∀ c s', s = c :: s' → isspace c = false) → lstrip s = s.
Proof.
  intros Hhead. destruct s as [|c s]; [done|]. simpl.
  by rewrite (Hhead c s).
Qed.

Lemma rstrip_id (s : pystr) :
  (∀ c s', s = s' ++ [c] → isspace c = false) → rstrip s = s.
Proof.
  intros Hlast. unfold rstrip.
  destruct s as [|c s _] using rev_ind; [done|].
  rewrite reverse_snoc. simpl. rewrite (Hlast c s) by done.
  by rewrite reverse_cons, reverse_involutive.
Qed.

Lemma strip_idemp (s : pystr) : strip (strip s) = strip s.
Proof.
  unfold strip at 1.
  rewrite (lstrip_id (strip s)) by apply strip_head.
  apply rstrip_id, strip_last.
Qed.

(** X12. Normalizing a result is idempotent: a result the match
    extractor has stored is left unchanged when it is normalized
    again. *)
Theorem X12_normalize_result_idempotent `{Runtime} (ergebnis : pystr) :
  normalize_result (normalize_result ergebnis) = normalize_result ergebnis.
Proof.
  assert (Hcases : (normalize_result ergebnis = strip ergebnis
                    ∧ NUM_RE (strip ergebnis) = true)
                   ∨ normalize_result ergebnis = []).
  { unfold normalize_result. destruct (NUM_RE (strip ergebnis)); auto. }
  destruct Hcases as [[-> Hre]| ->].
  - unfold normalize_result. by rewrite strip_idemp, Hre.
  - reflexivity.
Qed.

(** * Further properties of the player score extractor *)

Lemma parse_players_name `{Runtime} (soup : node) (p : player) :
  p ∈ parse_players soup → ∃ name_cell, name p = strip name_cell.
Proof.
  unfold parse_players.
  destruct (find_player_table soup) as [tbl|]; [|by intros ?%elem_of_nil].
  intros (tr & _ & Hrow)%list_elem_of_omap.
  apply parse_player_row_Some in Hrow as (name_cell & p_cell & _ & _ & _ & ->).
  by exists name_cell.
Qed.

(** X13. Every player name of the player score extractor is stripped:
    it neither starts nor ends with white space, and stripping it again
    changes nothing. *)
Theorem X13_player_names_stripped `{Runtime} (soup : node) (p : player) :
  p ∈ parse_players soup →
  strip (name p) = name p ∧
  (∀ c rest, name p = c :: rest → isspace c = false) ∧
  (∀ c init, name p = init ++ [c] → isspace c = false).
Proof.
  intros [name_cell ->]%parse_players_name.
  split_and!.
  - apply strip_idemp.
  - apply strip_head.
  - apply strip_last.
Qed.

Lemma X13_player_names_stripped_witness :
  let p := Player (py "Al Bo") 3 in
  p ∈ parse_players (H:=ascii_runtime) (players_page "  Al Bo " "3") ∧
  strip (name p) = name p.
Proof.
  intros p.
  assert (Hp : p ∈ parse_players (H:=ascii_runtime)
                     (players_page "  Al Bo " "3")).
  { vm_compute. apply list_elem_of_In. simpl. auto. }
  split; [exact Hp|].
  apply (X13_player_names_stripped (H:=ascii_runtime) _ p Hp).
Defined.

Lemma enumerate_snoc {A} (l : list A) (x : A) :
  enumerate (l ++ [x]) = enumerate l ++ [(Z.of_nat (length l), x)].
Proof.
  unfold enumerate. rewrite imap_app. simpl. by rewrite Nat.add_0_r.
Qed.

(** The last index the list [p_indices] holds, if any, is the position
    of the last header equal to ["P"]. *)
Lemma last_p_indices (headers : list pystr) :
  match last (omap (λ '(i, h), if bool_decide (h = py "P") then Some i
                               else None) (enumerate headers)) with
  | Some z =>
      ∃ i : nat, z = Z.of_nat i ∧ headers !! i = Some (py "P") ∧
                 ∀ j, (i < j)%nat → headers !! j ≠ Some (py "P")
  | None => py "P" ∉ headers
  end.
Proof.
  induction headers as [|h hs IH] using rev_ind; [apply not_elem_of_nil|].
  rewrite enumerate_snoc, omap_app. simpl.
  case_bool_decide as Hh.
  - rewrite last_snoc. exists (length hs). split_and!; [done| |].
    + by rewrite lookup_app_r, Nat.sub_diag, Hh by lia.
    + intros j Hj. rewrite lookup_ge_None_2; [done|].
      rewrite length_app. simpl. lia.
  - rewrite app_nil_r.
    destruct (last _) as [z|].
    + destruct IH as (i & -> & Hi & Hlater). exists i.
      pose proof (lookup_lt_Some _ _ _ Hi) as Hlen.
      split_and!; [done|by rewrite lookup_app_l|].
      intros j Hj. destruct (decide (j < length hs)%nat) as [Hjl|Hjl].
      * rewrite lookup_app_l by done. by apply Hlater.
      * destruct (decide (j = length hs)) as [->|Hne].
        -- rewrite lookup_app_r, Nat.sub_diag by lia. simpl. congruence.
        -- rewrite lookup_ge_None_2; [done|].
           rewrite length_app. simpl. lia.
    + rewrite elem_of_app, list_elem_of_singleton. naive_solver.
Qed.

(** X14. Column choice of the player score extractor: the name column
    is the first header equal to [Name] and the points column the last
    header equal to [P]; without a [Name] header the name column is 2
    when there are more than two headers and 0 otherwise, without a [P]
    header the points column is the third from the end, or 0. *)
Theorem X14_player_column_choice (headers : list pystr) :
  (py "Name" ∈ headers →
     ∃ i : nat, name_index headers = Z.of_nat i ∧
                headers !! i = Some (py "Name") ∧
                ∀ j, (j < i)%nat → headers !! j ≠ Some (py "Name")) ∧
  (py "Name" ∉ headers →
     name_index headers
     = if bool_decide (2 < Z.of_nat (length headers)) then 2 else 0) ∧
  (py "P" ∈ headers →
     ∃ i : nat, p_index headers = Z.of_nat i ∧
                headers !! i = Some (py "P") ∧
                ∀ j, (i < j)%nat → headers !! j ≠ Some (py "P")) ∧
  (py "P" ∉ headers →
     p_index headers = Z.max 0 (Z.of_nat (length headers) - 3)).
Proof.
  split_and!.
  - intros Hin. unfold name_index.
    destruct (list_find _ headers) as [[i x]|] eqn:Hfind.
    + apply list_find_Some in Hfind as (Hi & -> & Hfirst).
      exists i. split_and!; [done..|].
      intros j Hj Hlook. by apply (Hfirst j (py "Name")).
    + apply list_find_None in Hfind. rewrite Forall_forall in Hfind.
      by destruct (Hfind _ Hin).
  - intros Hnot. unfold name_index.
    destruct (list_find _ headers) as [[i x]|] eqn:Hfind; [|done].
    apply list_find_Some in Hfind as (Hi & -> & _).
    exfalso. apply Hnot. by eapply list_elem_of_lookup_2.
  - intros Hin. unfold p_index. pose proof (last_p_indices headers) as Hlast.
    destruct (last _) as [z|]; [|done].
    destruct Hlast as (i & -> & Hi & Hlater). by exists i.
  - intros Hnot. unfold p_index. pose proof (last_p_indices headers) as Hlast.
    destruct (last _) as [z|]; [|done].
    destruct Hlast as (i & -> & Hi & _).
    exfalso. apply Hnot. by eapply list_elem_of_lookup_2.
Qed.

Lemma startswith_app (needle s t : pystr) :
  startswith needle s = true → startswith needle (s ++ t) = true.
Proof.
  revert s. induction needle as [|a needle IH]; intros s; [done|].
  destruct s as [|b s]; simpl; [done|].
  rewrite !andb_true_iff. intros [? ?]. split; [done|by apply IH].
Qed.

Lemma contains_app_l (needle s t : pystr) :
  contains needle s = true → contains needle (s ++ t) = true.
Proof.
  induction s as [|c s IH]; simpl.
  - rewrite orb_false_r. intros Hs.
    apply (startswith_app _ _ t) in Hs. simpl in Hs.
    destruct t; simpl; by rewrite Hs.
  - rewrite !orb_true_iff. intros [Hs|Hs].
    + left. by apply (startswith_app needle (c :: s) t).
    + right. by apply IH.
Qed.

Lemma contains_app_r (needle s t : pystr) :
  contains needle t = true → contains needle (s ++ t) = true.
Proof.
  intros Ht. induction s as [|c s IH]; simpl; [done|].
  rewrite IH. apply orb_true_r.
Qed.

Lemma contains_join (needle sep h : pystr) (parts : list pystr) :
  h ∈ parts → contains needle h = true →
  contains needle (join sep parts) = true.
Proof.
  intros Hin Hh. induction parts as [|x parts IH]; [by apply elem_of_nil in Hin|].
  destruct parts as [|y parts].
  - apply list_elem_of_singleton in Hin as ->. done.
  - change (join sep (x :: y :: parts))
      with (x ++ sep ++ join sep (y :: parts)).
    apply elem_of_cons in Hin as [->|Hin].
    + by apply contains_app_l.
    + apply contains_app_r, contains_app_r. by apply IH.
Qed.

(** X15. The player table test looks for the letters, not for the
    columns: a table is taken as the player table as soon as one of its
    header cells contains [Name] and one contains [P], so a header such
    as [Pos] stands in for a missing [P] column. *)
Theorem X15_player_table_by_substring (tbl : node) (h1 h2 : pystr) :
  h1 ∈ header_cells tbl → contains (py "Name") h1 = true →
  h2 ∈ header_cells tbl → contains (py "P") h2 = true →
  is_player_table tbl = true.
Proof.
  intros Hh1 Hname Hh2 Hp. unfold is_player_table.
  rewrite (contains_join _ _ h1) by done.
  by rewrite (contains_join _ _ h2).
Qed.

Lemma X15_player_table_by_substring_witness :
  let tbl := Tag "table" [Tag "tr" [th "Name"; th "Pos"]] in
  is_player_table tbl = true.
Proof.
  intros tbl.
  apply (X15_player_table_by_substring tbl (py "Name") (py "Pos")).
  - vm_compute. apply list_elem_of_In. simpl. auto.
  - reflexivity.
  - vm_compute. apply list_elem_of_In. simpl. auto.
  - reflexivity.
Defined.

(** * The debugging script against the scraper *)

Lemma omap_sublist {A B} (f g : A → option B) (l : list A) :
  (∀ x y, f x = Some y → g x = Some y) → omap f l `sublist_of` omap g l.
Proof.
  intros Hfg. induction l as [|x l IH]; [constructor|].
  rewrite !omap_cons_match.
  destruct (f x) as [y|] eqn:Hf.
  - rewrite (Hfg x y Hf). by constructor.
  - destruct (g x); [by constructor|done].
Qed.

Lemma player_of_row_parse_player_row `{Runtime}
    (name_idx p_idx : Z) (tr : node) (p : player) :
  0 ≤ name_idx → 0 ≤ p_idx →
  test_scraper.player_of_row name_idx p_idx tr = Some p →
  parse_player_row name_idx p_idx tr = Some p.
Proof.
  intros Hn Hp. unfold test_scraper.player_of_row.
  case_bool_decide as Hlen; [|done].
  rewrite !(bool_decide_true (name_idx < _)) by lia.
  rewrite !(bool_decide_true (p_idx < _)) by lia.
  destruct (lookup_lt_is_Some_2 (row_cells tr) (Z.to_nat name_idx))
    as [name_cell Hname]; [lia|].
  destruct (lookup_lt_is_Some_2 (row_cells tr) (Z.to_nat p_idx))
    as [p_cell Hpc]; [lia|].
  unfold pystr in *. rewrite Hname, Hpc.
  cbv beta iota delta [from_option id].
  intros Hrow.
  match type of Hrow with
  | (if ?c then _ else _) = _ => destruct c eqn:Hcond; [|done]
  end.
  apply andb_true_iff in Hcond as [Hcond _].
  apply andb_true_iff in Hcond as [Hne _].
  apply bool_decide_eq_true in Hne.
  destruct (int (strip p_cell)) as [v|] eqn:Hint; [|done].
  injection Hrow as <-.
  rewrite (parse_player_row_kept name_idx p_idx tr name_cell p_cell)
    by done.
  unfold pystr in *. by rewrite Hint.
Qed.

(** X16. Every player the debugging script reports is a player of the
    scraper's player extractor, with the same name and raw score and in
    the same order: the script only leaves rows out (those whose points
    cell is not an integer, or whose name is [?] or starts with
    [endOfBlock]). *)
Theorem X16_debug_players_are_scraper_players `{Runtime} (soup : node) :
  test_scraper.players soup `sublist_of` parse_players soup.
Proof.
  unfold test_scraper.players, parse_players.
  destruct (find_player_table soup) as [tbl|]; [|constructor].
  apply omap_sublist. intros tr p.
  apply player_of_row_parse_player_row;
    auto using name_index_nonneg, p_index_nonneg.
Qed.

Lemma debug_matches_rows `{Runtime}
    (f : nat → node → Z * node) (rows : list node) :
  (∀ i tr, (f i tr).2 = tr) →
  (λ m, (home m, away m, result m)) <$> omap parse_match_row (imap f rows)
  = (λ t, (test_scraper.home t, test_scraper.away t,
           normalize_result (test_scraper.result t)))
    <$> omap test_scraper.match_of_row rows.
Proof.
  revert f. induction rows as [|tr rows IH]; intros f Hf; [done|].
  rewrite imap_cons, !omap_cons_match.
  pose proof (IH (f ∘ S) (λ i x, Hf (S i) x)) as IH'.
  specialize (Hf 0%nat tr). destruct (f 0%nat tr) as [z tr'].
  simpl in Hf. subst tr'.
  unfold test_scraper.match_of_row. cbn [parse_match_row].
  destruct (row_cells tr) as [|? [|? [|? [|? ?]]]]; try exact IH'.
  rewrite !fmap_cons. f_equal. exact IH'.
Qed.

(** X17. The debugging script and the match extractor read the same
    rows: they give the same number of matches, with the same home and
    away names in the same order, and the result of the extractor is the
    normalized result cell of the script. *)
Theorem X17_debug_matches_agree `{Runtime} (soup : node) :
  (λ m, (home m, away m, result m)) <$> (parse_matches soup).1
  = (λ t, (test_scraper.home t, test_scraper.away t,
           normalize_result (test_scraper.result t)))
    <$> test_scraper.matches soup.
Proof.
  unfold parse_matches, test_scraper.matches.
  destruct (find_match_table soup) as [tbl|]; [|done].
  simpl. unfold enumerate1. by apply debug_matches_rows.
Qed.

(** * The assembled round *)

Lemma rd_status_parse_spieltag `{Runtime} (soup : node) (spieltag : Z) :
  rd_status (parse_spieltag soup spieltag)
  = derive_spieltag_status (parse_matches soup).1 (parse_matches soup).2
      (apply_wurstliga_scoring WURSTLIGA_LADDER (parse_players soup)).
Proof. unfold parse_spieltag. by destruct (parse_matches soup). Qed.

Lemma omap_length_le {A B} (f : A → option B) (l : list A) :
  (length (omap f l) ≤ length l)%nat.
Proof.
  induction l as [|x l IH]; [done|]. rewrite omap_cons_match.
  destruct (f x); simpl; lia.
Qed.

Lemma omap_length_lt {A B} (f : A → option B) (l : list A) (x : A) :
  x ∈ l → f x = None → (length (omap f l) < length l)%nat.
Proof.
  intros Hx Hf. induction l as [|y l IH]; [by apply elem_of_nil in Hx|].
  rewrite omap_cons_match. apply elem_of_cons in Hx as [<-|Hx].
  - rewrite Hf. pose proof (omap_length_le f l). simpl. lia.
  - specialize (IH Hx). destruct (f y); simpl; lia.
Qed.

Lemma parse_matches_counts `{Runtime} (soup : node) :
  0 ≤ (parse_matches soup).2 ∧
  Z.of_nat (length (parse_matches soup).1) ≤ (parse_matches soup).2.
Proof.
  unfold parse_matches. destruct (find_match_table soup) as [tbl|]; simpl.
  - pose proof (omap_length_le parse_match_row
                  (enumerate1 (find_all "tr"
                                 (default tbl (find "tbody" tbl))))) as Hle.
    unfold enumerate1 in *. rewrite length_imap in Hle. lia.
  - lia.
Qed.

Lemma parse_matches_short_row `{Runtime} (soup tbl tr : node) :
  find_match_table soup = Some tbl →
  tr ∈ find_all "tr" (default tbl (find "tbody" tbl)) →
  (length (row_cells tr) < 4)%nat →
  Z.of_nat (length (parse_matches soup).1) < (parse_matches soup).2.
Proof.
  intros Htbl Htr Hshort. unfold parse_matches. rewrite Htbl. simpl.
  apply list_elem_of_lookup in Htr as [i Hi].
  pose proof (omap_length_lt parse_match_row
                (enumerate1 (find_all "tr" (default tbl (find "tbody" tbl))))
                (Z.of_nat i + 1, tr)) as Hlt.
  unfold enumerate1 in *. rewrite length_imap in Hlt.
  apply inj_lt, Hlt.
  - apply list_elem_of_lookup. exists i. by rewrite list_lookup_imap, Hi.
  - simpl. destruct (row_cells tr) as [|? [|? [|? [|? ?]]]]; simpl in *;
      (done || lia).
Qed.

Lemma results_done_no_results `{Runtime} (matches : list match_record) :
  Forall (λ m, result m = []) matches → results_done matches = 0.
Proof.
  intros Hall. unfold results_done.
  induction Hall as [|m ms Hm _ IH]; [done|].
  simpl. rewrite Hm, NUM_RE_nil. exact IH.
Qed.

(** X18. The assembled round is complete exactly when the match table
    has at least one row and every row of it is a match with a score:
    the number of completed results equals the slot count.  A single
    row with fewer than four cells, such as a heading row inside the
    table body, keeps the round from ever being complete. *)
Theorem X18_complete_needs_every_row `{Runtime} (soup : node) (spieltag : Z) :
  let matches := (parse_matches soup).1 in
  let total_slots := (parse_matches soup).2 in
  (rd_status (parse_spieltag soup spieltag) = complete ↔
   0 < total_slots ∧ results_done matches = total_slots) ∧
  (∀ tbl tr,
     find_match_table soup = Some tbl →
     tr ∈ find_all "tr" (default tbl (find "tbody" tbl)) →
     (length (row_cells tr) < 4)%nat →
     rd_status (parse_spieltag soup spieltag) ≠ complete).
Proof.
  intros matches total_slots.
  pose proof (parse_matches_counts soup) as [Hslots Hlen].
  pose proof (results_done_bounds matches) as Hdone.
  fold matches total_slots in Hslots, Hlen.
  assert (Hiff : rd_status (parse_spieltag soup spieltag) = complete ↔
                 0 < total_slots ∧ results_done matches = total_slots).
  { rewrite rd_status_parse_spieltag, derive_spieltag_status_naive.
    fold matches total_slots. unfold naive_status, expected_total.
    destruct (decide (0 < total_slots)) as [Hpos|Hzero].
    - rewrite (bool_decide_true (0 < total_slots)) by done.
      repeat case_bool_decide; split; (done || lia).
    - assert (results_done matches = 0) as -> by lia.
      rewrite bool_decide_true by done. split; [done|lia]. }
  split; [exact Hiff|].
  intros tbl tr Htbl Htr Hshort.
  pose proof (parse_matches_short_row soup tbl tr Htbl Htr Hshort) as Hlt.
  fold matches total_slots in Hlt. rewrite Hiff. lia.
Qed.

(** X19. A round without any scored result, in particular a page
    without a match table, is assembled as not_started whatever points
    its players have, and the season aggregator then skips the round
    document. *)
Theorem X19_no_results_not_counted `{Runtime} (soup : node) (spieltag : Z) :
  Forall (λ m, result m = []) (parse_matches soup).1 →
  rd_status (parse_spieltag soup spieltag) = not_started ∧
  compute_wurstliga.skipped (doc_of (parse_spieltag soup spieltag)) = true.
Proof.
  intros Hnone.
  assert (Hst : rd_status (parse_spieltag soup spieltag) = not_started).
  { rewrite rd_status_parse_spieltag, derive_spieltag_status_naive.
    rewrite (results_done_no_results _ Hnone). reflexivity. }
  split; [exact Hst|].
  apply skipped_doc_of. by left.
Qed.

Lemma X19_no_results_not_counted_witness :
  let soup := players_page "Al" "7" in
  Forall (λ m, result m = []) (parse_matches (H:=ascii_runtime) soup).1 ∧
  compute_wurstliga.skipped
    (doc_of (parse_spieltag (H:=ascii_runtime) soup 1)) = true.
Proof.
  intros soup.
  assert (Hnone : Forall (λ m, result m = [])
                    (parse_matches (H:=ascii_runtime) soup).1).
  { vm_compute. constructor. }
  split; [exact Hnone|].
  apply (X19_no_results_not_counted (H:=ascii_runtime) soup 1 Hnone).
Defined.

(** * Further properties of the season aggregator *)




Section aggregator_extras.
Import compute_wurstliga.


Lemma column_sum_Permutation (col : sums → Z) (t t' : totals_dict) :
  t ≡ₚ t' → column_sum col t = column_sum col t'.
Proof.
  induction 1 as [|x l l' _ IH|x y l|l1 l2 l3 _ IH1 _ IH2]; simpl;
    [done|by rewrite IH|lia|by etrans].
Qed.

Lemma column_sum_totals_update (col : sums → Z) (f : sums → sums) (d : Z)
    (n : pystr) (t : totals_dict) :
  (∀ v, col (f v) = col v + d) → col zero_sums = 0 →
  column_sum col (totals_update f n t) = column_sum col t + d.
Proof.
  intros Hf Hzero. induction t as [|[k v] t IH]; simpl.
  - rewrite Hf, Hzero. lia.
  - case_bool_decide; simpl; [rewrite Hf|rewrite IH]; lia.
Qed.

Lemma column_sum_foldl_add_player (col : sums → Z)
    (field : doc_player → option Z) (ps : list doc_player) (t : totals_dict) :
  (∀ p v, col (add_to_sums p v) = col v + default 0 (field p)) →
  col zero_sums = 0 →
  column_sum col (foldl add_player t ps)
  = column_sum col t + field_sum field ps.
Proof.
  intros Hadd Hzero. revert t.
  induction ps as [|p ps IH]; intros t; simpl; [lia|].
  rewrite IH. unfold add_player.
  rewrite (column_sum_totals_update col _ (default 0 (field p))) by done.
  lia.
Qed.

Lemma standings_of_main (docs : list doc) (now : pystr) :
  main docs now
  = Standings SEASON (sorted_ints (spieltag <$> counted_docs docs)) now
      (sorted_reverse key_lt
         (foldl add_player [] (all_players (counted_docs docs)))).
Proof. unfold main. by rewrite fold_docs_spec. Qed.


(** X20. The counted-round list of the standings is in ascending order
    and holds the round numbers of the counted documents, each as often
    as it occurs among them. *)
Theorem X20_counted_rounds_sorted (docs : list doc) (now : pystr) :
  StronglySorted Z.le (spieltage_counted (main docs now)) ∧
  spieltage_counted (main docs now) ≡ₚ spieltag <$> counted_docs docs.
Proof.
  rewrite standings_of_main. simpl. split.
  - apply sorted_ascending_sorted.
  - apply sorted_ascending_perm.
Qed.

(** X21. Nothing is lost or invented by the aggregation: each column of
    the standings sums, over all players, to the sum of that key over
    all player records of the counted documents. *)
Theorem X21_totals_conserved (docs : list doc) (now : pystr) :
  let standing := standings_players (main docs now) in
  let records := all_players (counted_docs docs) in
  column_sum wurstliga_sum standing = field_sum wurstliga_pts records ∧
  column_sum kicktipp_sum_P standing = field_sum kicktipp_P records ∧
  column_sum sts_sum standing = field_sum sts records ∧
  column_sum tv_sum standing = field_sum tv records ∧
  column_sum null_sum standing = field_sum null_wurst records.
Proof.
  intros standing records. unfold standing.
  rewrite standings_of_main. simpl.
  assert (Hcol : ∀ col field,
            (∀ p v, col (add_to_sums p v) = col v + default 0 (field p)) →
            col zero_sums = 0 →
            column_sum col (sorted_reverse key_lt
                              (foldl add_player [] records))
            = field_sum field records).
  { intros col field Hadd Hzero.
    rewrite (column_sum_Permutation col _ _ (sorted_reverse_perm key_lt _)).
    by rewrite (column_sum_foldl_add_player col field). }
  split_and!; by apply Hcol.
Qed.



(** X23. When every round document is skipped, in particular when
    there is none, the standings hold no counted round and no player. *)
Theorem X23_nothing_counted_empty_standings (docs : list doc) (now : pystr) :
  Forall (λ d, skipped d = true) docs →
  main docs now = Standings SEASON [] now [].
Proof.
  intros Hall. rewrite standings_of_main.
  assert (counted_docs docs = []) as ->; [|done].
  unfold counted_docs. induction Hall as [|d ds Hd _ IH]; [done|].
  simpl. by rewrite Hd.
Qed.

Lemma X23_nothing_counted_empty_standings_witness :
  let d := Doc 1 (Some (py "not_started"))
             (Some [DocPlayer (py "A") (Some 5) (Some 10) None None None]) in
  main [d] (py "now") = Standings SEASON [] (py "now") [].
Proof.
  intros d.
  apply (X23_nothing_counted_empty_standings [d] (py "now")).
  repeat constructor.
Defined.

End aggregator_extras.

(** * A round in which nobody scored *)

Lemma rd_players_parse_spieltag `{Runtime} (soup : node) (spieltag : Z) :
  rd_players (parse_spieltag soup spieltag)
  = apply_wurstliga_scoring WURSTLIGA_LADDER (parse_players soup).
Proof. unfold parse_spieltag. by destruct (parse_matches soup). Qed.

(** When every player has the same raw score, every player has rank 1. *)
Lemma all_tied_rank_1 (ladder : list Z) (players : list player) (x : Z)
    (s : scored) :
  Forall (λ p, kicktipp_P p = x) players →
  s ∈ apply_wurstliga_scoring ladder players →
  kicktipp_P (raw s) = x ∧ dense_rank s = 1.
Proof.
  intros Hall (p & Hp & ->)%elem_of_apply_wurstliga_scoring.
  rewrite Forall_forall in Hall. simpl.
  split; [by apply Hall|].
  rewrite (rank_counts_greater players p Hp). simpl.
  assert (Hempty : filter (λ t, kicktipp_P p < t) (distinct_scores players)
                   = ∅).
  { apply set_eq. intros t. rewrite elem_of_filter, elem_of_distinct_scores.
    split; [|by intros []%elem_of_empty].
    intros [Hlt (q & Hq & <-)].
    rewrite (Hall p Hp), (Hall q Hq) in Hlt. lia. }
  by rewrite Hempty, size_empty.
Qed.

(** X24. A round in which at least one player is listed and every raw
    score is 0 is skipped by the season aggregator whatever its status,
    even when it is complete; in its round document every player is a
    top scorer with dense rank 1 and the 10 league points of the first
    ladder entry, which therefore never reach the standings. *)
Theorem X24_all_zero_round_dropped `{Runtime} (soup : node) (spieltag : Z) :
  parse_players soup ≠ [] →
  Forall (λ p, kicktipp_P p = 0) (parse_players soup) →
  compute_wurstliga.skipped (doc_of (parse_spieltag soup spieltag)) = true ∧
  Forall (λ s, dense_rank s = 1 ∧ wurstliga_pts s = 10 ∧
               sts s = 1 ∧ tv s = 1 ∧ null_wurst s = 0)
    (rd_players (parse_spieltag soup spieltag)).
Proof.
  intros Hne Hzero.
  assert (Hall : ∀ s, s ∈ rd_players (parse_spieltag soup spieltag) →
                      kicktipp_P (raw s) = 0 ∧ dense_rank s = 1).
  { intros s. rewrite rd_players_parse_spieltag.
    by apply all_tied_rank_1. }
  split.
  - apply skipped_doc_of. right. split.
    + rewrite rd_players_parse_spieltag. unfold apply_wurstliga_scoring.
      by destruct (parse_players soup).
    + apply Forall_forall. intros s Hs. by apply Hall.
  - apply Forall_forall. intros s Hs.
    destruct (Hall s Hs) as [Hscore Hrank].
    rewrite rd_players_parse_spieltag in Hs.
    apply elem_of_apply_wurstliga_scoring in Hs as (p & _ & ->).
    simpl in *. rewrite Hrank, Hscore. by vm_compute.
Qed.

Lemma X24_all_zero_round_dropped_witness :
  let soup :=
    Tag "[document]"
      [Tag "table"
         [Tag "tr" [th "Termin"; th "Heim"; th "Gast"; th "Ergebnis"];
          Tag "tbody" [Tag "tr" [td "offen"; td "FCB"; td "BVB"; td "0:0"]]];
       Tag "table"
         [Tag "tr" [th "Pos"; th "Name"; th "P"];
          Tag "tr" [td "1"; td "Al"; td "0"]]] in
  rd_status (parse_spieltag (H:=ascii_runtime) soup 1) = complete ∧
  compute_wurstliga.skipped
    (doc_of (parse_spieltag (H:=ascii_runtime) soup 1)) = true.
Proof.
  intros soup. split; [reflexivity|].
  apply (X24_all_zero_round_dropped (H:=ascii_runtime) soup 1).
  - vm_compute. discriminate.
  - vm_compute. repeat constructor.
Defined.
